(** * A TTL cache and its cache-aside client (pokedex)

    Shallow embedding of [src/pokecache.ts] (class [Cache], listed in the
    repository's README), of [src/pokeapi.ts] (class [PokeAPI]) and of
    [cleanInput] of [src/repl.ts].

    The Node runtime the code runs on is modelled explicitly:
    - a millisecond clock ([Date.now()]);
    - the table of interval timers ([setInterval] / [clearInterval]), and
      the moments at which the event loop gets to run the timers that are
      due (a timer never runs before it is due, it may run late);
    - the remote server answering [fetch];
    - the console and the list of requests sent, kept as logs.

    A [World] holds that runtime together with the private fields of the one
    [Cache] instance under consideration (the one a [PokeAPI] owns, or the one
    a test builds).  Methods are computations in a state-and-exception monad
    over [World]; an [async] method is a computation whose [await] points let
    the clock advance and the timers fire. *)

From stdpp Require Import gmap strings pretty.

Open Scope Z_scope.
Set Warnings "-register-all".

(** ** JavaScript values

    The cache stores values of any type ([CacheEntry<any>]).  Numbers are
    restricted to the integer-valued ones, which is all the timestamps,
    status codes and test values of this program need. *)

Inductive JSValue : Type :=
| JUndefined
| JNull
| JBool (b : bool)
| JNumber (n : Z)
| JString (s : string)
| JArray (items : list JSValue)
| JObject (fields : list (string * JSValue)).

(** Truthiness, as tested by [if (cached)] and by [pageURL || ...]. *)
Definition truthy (v : JSValue) : bool :=
  match v with
  | JUndefined | JNull => false
  | JBool b => b
  | JNumber n => negb (n =? 0)
  | JString s => match s with EmptyString => false | String _ _ => true end
  | JArray _ | JObject _ => true
  end.

(** ** Exceptions and completions *)

Inductive Exn : Type :=
| Error (message : string)         (* [new Error(message)] *)
| TypeError (message : string)     (* [fetch] rejects: transport failure *)
| SyntaxError (message : string).  (* [response.json()] rejects: bad body *)

Inductive Completion (A : Type) : Type :=
| Return (a : A)
| Throw (e : Exn).
Arguments Return {A} a.
Arguments Throw {A} e.

(** ** The world *)

(** [type CacheEntry<T> = { createdAt: number; val: T }] *)
Record CacheEntry : Type := mkEntry { createdAt : Z; val : JSValue }.

(** An active interval timer: its period and the time from which it is due.  Every
    timer of a world was created by [#startReapLoop], so its callback is
    [this.#reap()]. *)
Record Timer : Type := mkTimer { delay : Z; due : Z }.

(** What [fetch] gets back for a URL. *)
Record Response : Type := mkResponse {
  status : Z;
  body : option JSValue;   (* [None]: the body is not valid JSON *)
  body_error : string;     (* the decoder's message for such a body *)
  body_latency : nat       (* milliseconds until the body has been read *)
}.

Record Reply : Type := mkReply {
  latency : nat;               (* milliseconds until [fetch] settles *)
  outcome : option Response;   (* [None]: connection refused, timeout, ... *)
  failure : string             (* the message of the error [fetch] rejects
                                  with when there is no response *)
}.

Record World : Type := mkWorld {
  clock : Z;                           (* [Date.now()] *)
  cache : gmap string CacheEntry;      (* [#cache] *)
  reapIntervalId : option nat;         (* [#reapIntervalId] *)
  interval : Z;                        (* [#interval] *)
  timers : gmap nat Timer;             (* the runtime's active interval timers *)
  next_timer : nat;                    (* next fresh timer handle *)
  remote : string -> Reply;            (* the server behind [fetch] *)
  requests : list string;              (* URLs requested so far *)
  console : list string;               (* lines printed so far *)
  runs_first : Z -> bool;              (* at the start of millisecond [t] the
                                          event loop runs the timers due *)
  runs_last : Z -> bool                (* at the end of millisecond [t], after
                                          the program's code of that
                                          millisecond, it runs them *)
}.

Definition set_clock (t : Z) (w : World) : World :=
  mkWorld t (cache w) (reapIntervalId w) (interval w) (timers w)
          (next_timer w) (remote w) (requests w) (console w)
          (runs_first w) (runs_last w).
Definition set_cache (m : gmap string CacheEntry) (w : World) : World :=
  mkWorld (clock w) m (reapIntervalId w) (interval w) (timers w)
          (next_timer w) (remote w) (requests w) (console w)
          (runs_first w) (runs_last w).
Definition set_reapIntervalId (h : option nat) (w : World) : World :=
  mkWorld (clock w) (cache w) h (interval w) (timers w)
          (next_timer w) (remote w) (requests w) (console w)
          (runs_first w) (runs_last w).
Definition set_interval (i : Z) (w : World) : World :=
  mkWorld (clock w) (cache w) (reapIntervalId w) i (timers w)
          (next_timer w) (remote w) (requests w) (console w)
          (runs_first w) (runs_last w).
Definition set_timers (ts : gmap nat Timer) (w : World) : World :=
  mkWorld (clock w) (cache w) (reapIntervalId w) (interval w) ts
          (next_timer w) (remote w) (requests w) (console w)
          (runs_first w) (runs_last w).
Definition set_next_timer (n : nat) (w : World) : World :=
  mkWorld (clock w) (cache w) (reapIntervalId w) (interval w) (timers w)
          n (remote w) (requests w) (console w) (runs_first w) (runs_last w).
Definition set_remote (r : string -> Reply) (w : World) : World :=
  mkWorld (clock w) (cache w) (reapIntervalId w) (interval w) (timers w)
          (next_timer w) r (requests w) (console w) (runs_first w) (runs_last w).
Definition set_requests (l : list string) (w : World) : World :=
  mkWorld (clock w) (cache w) (reapIntervalId w) (interval w) (timers w)
          (next_timer w) (remote w) l (console w) (runs_first w) (runs_last w).
Definition set_console (l : list string) (w : World) : World :=
  mkWorld (clock w) (cache w) (reapIntervalId w) (interval w) (timers w)
          (next_timer w) (remote w) (requests w) l (runs_first w) (runs_last w).
Definition set_pace (first last : Z -> bool) (w : World) : World :=
  mkWorld (clock w) (cache w) (reapIntervalId w) (interval w) (timers w)
          (next_timer w) (remote w) (requests w) (console w) first last.

(** ** The monad of methods *)

Definition M (A : Type) : Type := World -> Completion A * World.

#[global] Instance M_ret : MRet M := fun A a w => (Return a, w).
#[global] Instance M_bind : MBind M := fun A B k m w =>
  match m w with
  | (Return a, w') => k a w'
  | (Throw e, w') => (Throw e, w')
  end.

Definition throw {A : Type} (e : Exn) : M A := fun w => (Throw e, w).
Definition gets {A : Type} (f : World -> A) : M A := fun w => (Return (f w), w).
Definition modify (f : World -> World) : M unit := fun w => (Return tt, f w).

(** Result and final world of running a method. *)
Definition result {A : Type} (m : M A) (w : World) : Completion A := (m w).1.
Definition exec {A : Type} (m : M A) (w : World) : World := (m w).2.

(** ** Runtime primitives *)

Definition Date_now : M Z := gets clock.

Definition console_log (line : string) : M unit :=
  modify (fun w => set_console (console w ++ [line]) w).

(** Node sets a timer delay below 1 ms or above 2147483647 ms to 1 ms. *)
Definition TIMEOUT_MAX : Z := 2147483647.

Definition timer_delay (d : Z) : Z :=
  if (1 <=? d) && (d <=? TIMEOUT_MAX) then d else 1.

(** [setInterval(callback, d)]: the callback is always [() => this.#reap()]. *)
Definition setInterval (d : Z) : M nat := fun w =>
  let id := next_timer w in
  let tm := mkTimer (timer_delay d) (clock w + timer_delay d) in
  (Return id, set_next_timer (S id) (set_timers (<[id := tm]> (timers w)) w)).

Definition clearInterval (id : nat) : M unit :=
  modify (fun w => set_timers (delete id (timers w)) w).

(** ** [class Cache] *)

Module Cache.

(** [add<T>(key, val)]: [this.#cache.set(key, { createdAt: Date.now(), val })]. *)
Definition add (key : string) (v : JSValue) : M unit :=
  now ← Date_now;
  modify (fun w => set_cache (<[key := mkEntry now v]> (cache w)) w).

(** [get<T>(key)]: [undefined] when the map has no entry, else [entry.val]. *)
Definition get (key : string) : M JSValue :=
  entry ← gets (fun w => cache w !! key);
  match entry with
  | None => mret JUndefined
  | Some e => mret (val e)
  end.

(** One iteration of the loop of [#reap]. *)
Definition reap_entry (cutoff : Z) (key : string) (entry : CacheEntry)
    (m : gmap string CacheEntry) : gmap string CacheEntry :=
  if bool_decide (createdAt entry < cutoff) then delete key m else m.

(** [#reap()]: one pass over the entries, deleting from the map it walks.
    (A JavaScript [Map] may be deleted from while it is iterated.) *)
Definition reap : M unit :=
  now ← Date_now;
  cutoff ← gets (fun w => now - interval w);
  modify (fun w => set_cache (map_fold (reap_entry cutoff) (cache w) (cache w)) w).

(** [#startReapLoop()] *)
Definition startReapLoop : M unit :=
  d ← gets interval;
  id ← setInterval d;
  modify (set_reapIntervalId (Some id)).

(** [constructor(interval)], after the field initialisers
    [#cache = new Map()] and [#reapIntervalId = undefined]. *)
Definition constructor (i : Z) : M unit :=
  _ ← modify (fun w => set_reapIntervalId None (set_cache ∅ w));
  _ ← modify (set_interval i);
  startReapLoop.

(** [stopReapLoop()] *)
Definition stopReapLoop : M unit :=
  h ← gets reapIntervalId;
  match h with
  | Some id =>
      _ ← clearInterval id;
      modify (set_reapIntervalId None)
  | None => mret tt
  end.

End Cache.

(** ** The event loop

    A timer is due from its [due] time on.  The event loop runs the timers
    that are due when it gets to it: never before they are due, possibly
    later, before or after the program's own code of a millisecond; a timer
    that has run is armed again one period after the moment it ran.  When and
    whether the loop gets to it is the runtime's affair ([runs_first],
    [runs_last]). *)

Definition rearm (now : Z) (tm : Timer) : Timer :=
  if bool_decide (due tm <= now) then mkTimer (delay tm) (now + delay tm) else tm.

(** The timers that are due at [now]. *)
Definition fired (now : Z) (ts : gmap nat Timer) : gmap nat Timer :=
  filter (fun p => due p.2 <= now) ts.

(** The event loop runs the timers that are due: the callback of each (here
    always [#reap]) runs, and each is armed again. *)
Definition fire (w : World) : World :=
  let now := clock w in
  let n := size (fired now (timers w)) in
  Nat.iter n (exec Cache.reap) (set_timers (rearm now <$> timers w) w).

Definition fire_if (b : bool) (w : World) : World := if b then fire w else w.

(** One millisecond passes. *)
Definition tick_ms (w : World) : World :=
  let w1 := fire_if (runs_last w (clock w)) w in
  let w2 := set_clock (clock w + 1) w1 in
  fire_if (runs_first w (clock w + 1)) w2.

(** Let [ms] milliseconds pass. *)
Definition wait (ms : nat) (w : World) : World := Nat.iter ms tick_ms w.

(** An [await] on something that settles after [ms] milliseconds. *)
Definition sleep (ms : nat) : M unit := modify (wait ms).

(** ** [fetch] and [Response] *)

(** [response.ok]: the status is in the range 200-299. *)
Definition ok (r : Response) : bool := (200 <=? status r) && (status r <=? 299).

(** [await fetch(url)] *)
Definition fetch (url : string) : M Response :=
  _ ← modify (fun w => set_requests (requests w ++ [url]) w);
  reply ← gets (fun w => remote w url);
  _ ← sleep (latency reply);
  match outcome reply with
  | None => throw (TypeError (failure reply))
  | Some r => mret r
  end.

(** [await response.json()] *)
Definition json (r : Response) : M JSValue :=
  _ ← sleep (body_latency r);
  match body r with
  | None => throw (SyntaxError (body_error r))
  | Some v => mret v
  end.

(** ** [class PokeAPI] *)

Module PokeAPI.

Definition baseURL : string := "https://pokeapi.co/api/v2".

(** [constructor()]: [this.cache = new Cache(300000)]. *)
Definition constructor : M unit := Cache.constructor 300000.

(** [pageURL || dflt], for [pageURL?: string]. *)
Definition or_default (pageURL : option string) (dflt : string) : string :=
  match pageURL with
  | Some u => if truthy (JString u) then u else dflt
  | None => dflt
  end.

(** [`HTTP error! status: ${response.status}`] *)
Definition http_error (r : Response) : Exn :=
  Error ("HTTP error! status: " +:+ pretty (status r)).

Definition fetchLocations (pageURL : option string) : M JSValue :=
  let url := or_default pageURL (baseURL +:+ "/location-area?offset=0&limit=20") in
  cached ← Cache.get url;
  if truthy cached then
    _ ← console_log ("Cache hit for: " +:+ url);
    mret cached
  else
    _ ← console_log ("Cache miss, fetching: " +:+ url);
    response ← fetch url;
    if negb (ok response) then throw (http_error response)
    else
      data ← json response;
      _ ← Cache.add url data;
      mret data.

Definition fetchLocation (locationName : string) : M JSValue :=
  let url := baseURL +:+ "/location-area/" +:+ locationName in
  cached ← Cache.get url;
  if truthy cached then
    _ ← console_log ("Cache hit for: " +:+ url);
    mret cached
  else
    _ ← console_log ("Cache miss, fetching: " +:+ url);
    response ← fetch url;
    if negb (ok response) then throw (http_error response)
    else
      data ← json response;
      _ ← Cache.add url data;
      mret data.

Definition fetchPokemon (pokemonName : string) : M JSValue :=
  let url := baseURL +:+ "/pokemon/" +:+ pokemonName in
  cached ← Cache.get url;
  if truthy cached then
    _ ← console_log ("Cache hit for: " +:+ url);
    mret cached
  else
    _ ← console_log ("Cache miss, fetching: " +:+ url);
    response ← fetch url;
    if negb (ok response) then throw (http_error response)
    else
      data ← json response;
      _ ← Cache.add url data;
      mret data.

End PokeAPI.



(** A freshly started process: nothing cached, no timer, nothing logged; its
    event loop is never held up (see [set_pace] for one that is). *)
Definition boot (t : Z) (srv : string -> Reply) : World :=
  mkWorld t ∅ None 0 ∅ 0 srv [] [] (fun _ => true) (fun _ => false).

(** A server that knows one pokemon and takes 5 ms to answer; and the world
    of the cache test: a cache of interval 100 ms built at time 0, holding
    one entry added at once. *)
Definition test_server : string -> Reply := fun url =>
  if String.eqb url "https://pokeapi.co/api/v2/pokemon/pikachu"
  then mkReply 5 (Some (mkResponse 200
         (Some (JObject [("id", JNumber 25); ("name", JString "pikachu")])) "" 1)) ""
  else mkReply 5 (Some (mkResponse 404 None "Unexpected end of JSON input" 0)) "".

Definition test_world : World :=
  exec (Cache.add "a" (JString "x")) (exec (Cache.constructor 100) (boot 0 test_server)).

(** What [get] finds under a key. *)
Definition cached (key : string) (w : World) : JSValue :=
  match cache w !! key with
  | Some e => val e
  | None => JUndefined
  end.

(** An entry survives a sweep with the given cutoff. *)
Definition survives (cutoff : Z) (e : CacheEntry) : bool :=
  negb (bool_decide (createdAt e < cutoff)).

(** ** [cleanInput] of [repl.ts]

    [input.trim().toLowerCase().split(/\s+/)], on strings of ASCII
    characters: there the white space of [trim] and of [\s] is the six
    characters tab, line feed, vertical tab, form feed, carriage return and
    space, and [toLowerCase] changes the letters [A]-[Z] only. *)

Definition is_ascii (s : string) : Prop :=
  Forall (fun c => (Ascii.N_of_ascii c < 128)%N) (String.list_ascii_of_string s).

Definition is_space (c : Ascii.ascii) : bool :=
  let n := Ascii.N_of_ascii c in
  ((9 <=? n) && (n <=? 13) || (n =? 32))%N.

Definition is_upper (c : Ascii.ascii) : bool :=
  let n := Ascii.N_of_ascii c in ((65 <=? n) && (n <=? 90))%N.

Definition to_lower (c : Ascii.ascii) : Ascii.ascii :=
  if is_upper c then Ascii.ascii_of_N (Ascii.N_of_ascii c + 32) else c.

Fixpoint trim_start (s : list Ascii.ascii) : list Ascii.ascii :=
  match s with
  | [] => []
  | c :: rest => if is_space c then trim_start rest else s
  end.

(** [String.prototype.trim] *)
Definition trim (s : list Ascii.ascii) : list Ascii.ascii :=
  reverse (trim_start (reverse (trim_start s))).

(** [String.prototype.split(/\s+/)]: the pieces between the maximal runs of
    white space, an empty first (last) piece when the string begins (ends)
    with white space, and the whole string, be it empty, when it has none.
    [in_run] tells that the character before was white space, [cur] is the
    piece being read. *)
Fixpoint split_ws (in_run : bool) (cur : list Ascii.ascii) (s : list Ascii.ascii) : list (list Ascii.ascii) :=
  match s with
  | [] => [cur]
  | c :: rest =>
      if is_space c then
        if in_run then split_ws true cur rest
        else cur :: split_ws true [] rest
      else split_ws false (cur ++ [c]) rest
  end.

Definition cleanInput (input : string) : list string :=
  String.string_of_list_ascii <$>
    split_ws false [] (to_lower <$> trim (String.list_ascii_of_string input)).

(** A word as [cleanInput] gives them: not empty, without white space,
    without capital letters. *)
Definition clean_word (w : string) : Prop :=
  w <> "" /\
  Forall (fun c => is_space c = false /\ is_upper c = false) (String.list_ascii_of_string w).

(** [words.join(" ")] *)
Fixpoint join_words (ws : list string) : string :=
  match ws with
  | [] => ""
  | [w] => w
  | w :: rest => w +:+ " " +:+ join_words rest
  end.

(** ** Vocabulary of the properties *)

(** Every active timer is the one whose handle the cache holds. *)
Definition owned (w : World) : Prop :=
  forall id, is_Some (timers w !! id) -> reapIntervalId w = Some id.

(** The sweep of this cache is running: the handle the cache holds names an
    active timer whose period is the cache's (positive) interval and which
    is due at the latest one period from now. *)
Definition sweeping (w : World) : Prop :=
  exists id tm,
    reapIntervalId w = Some id /\ timers w !! id = Some tm /\
    delay tm = interval w /\ 0 < interval w /\
    due tm <= clock w + interval w.

(** Under a running sweep, the entry under [k] (if any) finds the sweep due
    at the latest two intervals after its creation. *)
Definition doomed (k : string) (w : World) : Prop :=
  exists id tm,
    reapIntervalId w = Some id /\ timers w !! id = Some tm /\
    delay tm = interval w /\ 0 < interval w /\
    due tm <= clock w + interval w /\
    match cache w !! k with
    | Some e => due tm <= createdAt e + 2 * interval w
    | None => True
    end.

(** The body the three methods of [PokeAPI] share, once the URL is known. *)
Definition cache_aside (url : string) : M JSValue :=
  hit ← Cache.get url;
  if truthy hit then
    _ ← console_log ("Cache hit for: " +:+ url);
    mret hit
  else
    _ ← console_log ("Cache miss, fetching: " +:+ url);
    response ← fetch url;
    if negb (ok response) then throw (PokeAPI.http_error response)
    else
      data ← json response;
      _ ← Cache.add url data;
      mret data.

(** The world when [fetch url] settles after a miss in [w]. *)
Definition settled (url : string) (w : World) : World :=
  wait (latency (remote w url))
    (set_requests (requests w ++ [url])
       (set_console (console w ++ ["Cache miss, fetching: " +:+ url]) w)).

(** The two resources fetched by name, and the URL of each. *)
Inductive Resource : Type := LocationArea | Pokemon.

Definition fetch_by_name (res : Resource) (name : string) : M JSValue :=
  match res with
  | LocationArea => PokeAPI.fetchLocation name
  | Pokemon => PokeAPI.fetchPokemon name
  end.

Definition resource_url (res : Resource) (name : string) : string :=
  match res with
  | LocationArea => "https://pokeapi.co/api/v2/location-area/" +:+ name
  | Pokemon => "https://pokeapi.co/api/v2/pokemon/" +:+ name
  end.

Definition first_page_url : string :=
  "https://pokeapi.co/api/v2/location-area?offset=0&limit=20".

(** [op] decides hit or miss by the cache entry under [url], requests [url]
    and nothing else on a miss, and stores what it fetched under [url]. *)
Definition keyed_by (op : M JSValue) (url : string) : Prop :=
  forall w : World,
    (truthy (cached url w) = true ->
       result op w = Return (cached url w) /\ requests (exec op w) = requests w) /\
    (truthy (cached url w) = false ->
       requests (exec op w) = requests w ++ [url] /\
       forall data, result op w = Return data ->
         cache (exec op w) !! url = Some (mkEntry (clock (exec op w)) data)).

(** ** Calls and sessions *)

(** A call of one of the three public methods of [PokeAPI], and the URL it
    works with. *)
Inductive Call : Type :=
| ListPage (pageURL : option string)
| ByName (res : Resource) (name : string).

Definition call (c : Call) : M JSValue :=
  match c with
  | ListPage pageURL => PokeAPI.fetchLocations pageURL
  | ByName res name => fetch_by_name res name
  end.

Definition call_url (c : Call) : string :=
  match c with
  | ListPage pageURL => PokeAPI.or_default pageURL first_page_url
  | ByName res name => resource_url res name
  end.

(** What can happen to a cache once it is built: its public methods are
    called, the methods of the [PokeAPI] that owns it are called, time passes,
    the server changes its answers. *)
Inductive Step : Type :=
| StepAdd (key : string) (v : JSValue)
| StepGet (key : string)
| StepStop
| StepCall (c : Call)
| StepWait (ms : nat)
| StepServer (srv : string -> Reply).

Definition step (s : Step) (w : World) : World :=
  match s with
  | StepAdd key v => exec (Cache.add key v) w
  | StepGet key => exec (Cache.get key) w
  | StepStop => exec Cache.stopReapLoop w
  | StepCall c => exec (call c) w
  | StepWait ms => wait ms w
  | StepServer srv => set_remote srv w
  end.

Definition run (steps : list Step) (w : World) : World :=
  fold_left (fun w s => step s w) steps w.

(** The keys a step may write. *)
Definition step_key (s : Step) : option string :=
  match s with
  | StepAdd key _ => Some key
  | StepCall c => Some (call_url c)
  | _ => None
  end.

Definition is_stop (s : Step) : bool :=
  match s with StepStop => true | _ => false end.

(** The sweep is running: every entry was created in the past, and the
    timer is due no later than two intervals after the creation of any
    entry. *)
Definition young (w : World) : Prop :=
  exists id tm,
    reapIntervalId w = Some id /\ timers w !! id = Some tm /\
    delay tm = interval w /\ 0 < interval w /\
    due tm <= clock w + interval w /\
    forall k e, cache w !! k = Some e ->
      createdAt e <= clock w /\ due tm <= createdAt e + 2 * interval w.

(** A server that answers every request after 3 ms with status 200 and the
    same body. *)
Definition const_server (data : JSValue) : string -> Reply :=
  fun _ => mkReply 3 (Some (mkResponse 200 (Some data) "" 0)) "".

(** The sweep has been stopped and no timer is left. *)
Definition stopped (w : World) : Prop :=
  reapIntervalId w = None /\ timers w = ∅.

(** * Properties *)

(** ** The sweep *)

Lemma reap_fold_lookup (cutoff : Z) (b m : gmap string CacheEntry) (k : string) :
  map_fold (Cache.reap_entry cutoff) b m !! k =
  match m !! k with
  | Some e => if survives cutoff e then b !! k else None
  | None => b !! k
  end.
Proof.
  revert k.
  apply (map_fold_weak_ind (fun r m' => forall k,
    r !! k = match m' !! k with
             | Some e => if survives cutoff e then b !! k else None
             | None => b !! k
             end)); clear m.
  - intros k. by rewrite lookup_empty.
  - intros i x m r Hi IH k. unfold Cache.reap_entry, survives.
    destruct (decide (i = k)) as [->|Hne].
    + rewrite lookup_insert_eq. case_bool_decide; simpl.
      * by rewrite lookup_delete_eq.
      * rewrite IH, Hi. done.
    + rewrite lookup_insert_ne by done. case_bool_decide; simpl.
      * rewrite lookup_delete_ne by done. apply IH.
      * apply IH.
Qed.

Lemma reap_world (w : World) :
  exec Cache.reap w =
  set_cache (map_fold (Cache.reap_entry (clock w - interval w)) (cache w) (cache w)) w.
Proof. reflexivity. Qed.

Lemma reap_lookup (w : World) (k : string) :
  cache (exec Cache.reap w) !! k =
  match cache w !! k with
  | Some e => if survives (clock w - interval w) e then Some e else None
  | None => None
  end.
Proof.
  rewrite reap_world. simpl. rewrite reap_fold_lookup.
  destruct (cache w !! k) as [e|] eqn:E; [|done].
  by destruct (survives _ e).
Qed.

(** Running the sweep [n] times at the same instant. *)
Lemma reap_iter_frame (n : nat) (w : World) :
  let w' := Nat.iter n (exec Cache.reap) w in
  clock w' = clock w /\ interval w' = interval w /\
  reapIntervalId w' = reapIntervalId w /\ timers w' = timers w /\
  next_timer w' = next_timer w /\ remote w' = remote w /\
  requests w' = requests w /\ console w' = console w /\
  runs_first w' = runs_first w /\ runs_last w' = runs_last w.
Proof.
  induction n as [|n IH]; [done|].
  cbv zeta in *. rewrite Nat.iter_succ, reap_world. exact IH.
Qed.

Lemma reap_iter_lookup (n : nat) (w : World) (k : string) :
  cache (Nat.iter n (exec Cache.reap) w) !! k =
  match n with
  | O => cache w !! k
  | S _ =>
      match cache w !! k with
      | Some e => if survives (clock w - interval w) e then Some e else None
      | None => None
      end
  end.
Proof.
  induction n as [|n IH]; [done|].
  rewrite Nat.iter_succ, reap_lookup.
  destruct (reap_iter_frame n w) as (-> & -> & _).
  rewrite IH. destruct n as [|n]; [done|].
  destruct (cache w !! k) as [e|]; [|done].
  destruct (survives _ e) eqn:E; [by rewrite E|done].
Qed.

(** ** The event loop *)

Lemma fire_frame (w : World) :
  clock (fire w) = clock w /\ interval (fire w) = interval w /\
  reapIntervalId (fire w) = reapIntervalId w /\
  timers (fire w) = rearm (clock w) <$> timers w /\
  next_timer (fire w) = next_timer w /\ remote (fire w) = remote w /\
  requests (fire w) = requests w /\ console (fire w) = console w /\
  runs_first (fire w) = runs_first w /\ runs_last (fire w) = runs_last w.
Proof. unfold fire. apply (reap_iter_frame _ (set_timers _ w)). Qed.

Lemma fire_lookup (w : World) (k : string) :
  cache (fire w) !! k =
  match size (fired (clock w) (timers w)) with
  | O => cache w !! k
  | S _ =>
      match cache w !! k with
      | Some e => if survives (clock w - interval w) e then Some e else None
      | None => None
      end
  end.
Proof. unfold fire. by rewrite reap_iter_lookup. Qed.

Lemma fire_timer (w : World) (id : nat) (tm : Timer) :
  timers w !! id = Some tm -> timers (fire w) !! id = Some (rearm (clock w) tm).
Proof.
  intros H. destruct (fire_frame w) as (_ & _ & _ & -> & _).
  by rewrite lookup_fmap, H.
Qed.

Lemma fire_lookup_Some (w : World) (k : string) (e : CacheEntry) :
  cache (fire w) !! k = Some e -> cache w !! k = Some e.
Proof.
  rewrite fire_lookup. destruct (size _); [done|].
  destruct (cache w !! k) as [e'|]; [|done]. by destruct (survives _ e').
Qed.

Lemma fire_keeps_fresh (w : World) (k : string) (e : CacheEntry) :
  cache w !! k = Some e -> clock w <= createdAt e + interval w ->
  cache (fire w) !! k = Some e.
Proof.
  intros Hk Hage. rewrite fire_lookup, Hk. destruct (size _); [done|].
  unfold survives. case_bool_decide; [lia|done].
Qed.

Lemma fire_no_timers (w : World) :
  timers w = ∅ -> timers (fire w) = ∅ /\ cache (fire w) = cache w.
Proof.
  intros Ht. split.
  - destruct (fire_frame w) as (_ & _ & _ & -> & _). rewrite Ht. apply fmap_empty.
  - apply map_eq. intros k. rewrite fire_lookup, Ht.
    unfold fired. by rewrite map_filter_empty, map_size_empty.
Qed.

Lemma tick_ms_frame (w : World) :
  clock (tick_ms w) = clock w + 1 /\ interval (tick_ms w) = interval w /\
  reapIntervalId (tick_ms w) = reapIntervalId w /\
  next_timer (tick_ms w) = next_timer w /\ remote (tick_ms w) = remote w /\
  requests (tick_ms w) = requests w /\ console (tick_ms w) = console w /\
  runs_first (tick_ms w) = runs_first w /\ runs_last (tick_ms w) = runs_last w.
Proof.
  unfold tick_ms, fire_if.
  destruct (runs_last w (clock w)), (runs_first w (clock w + 1)).
  - destruct (fire_frame (set_clock (clock w + 1) (fire w)))
      as (-> & -> & -> & _ & -> & -> & -> & -> & -> & ->). simpl.
    by destruct (fire_frame w) as (_ & -> & -> & _ & -> & -> & -> & -> & -> & ->).
  - simpl. by destruct (fire_frame w) as (_ & -> & -> & _ & -> & -> & -> & -> & -> & ->).
  - by destruct (fire_frame (set_clock (clock w + 1) w))
      as (-> & -> & -> & _ & -> & -> & -> & -> & -> & ->).
  - done.
Qed.

Lemma tick_ms_lookup_Some (w : World) (k : string) (e : CacheEntry) :
  cache (tick_ms w) !! k = Some e -> cache w !! k = Some e.
Proof.
  unfold tick_ms, fire_if.
  destruct (runs_last w (clock w)), (runs_first w (clock w + 1)); intros H.
  - apply fire_lookup_Some in H. simpl in H. by apply fire_lookup_Some in H.
  - simpl in H. by apply fire_lookup_Some in H.
  - by apply fire_lookup_Some in H.
  - done.
Qed.

Lemma tick_ms_keeps_fresh (w : World) (k : string) (e : CacheEntry) :
  cache w !! k = Some e -> clock w + 1 <= createdAt e + interval w ->
  cache (tick_ms w) !! k = Some e.
Proof.
  intros Hk Hage. unfold tick_ms, fire_if.
  assert (cache (fire w) !! k = Some e) as Hk1 by (apply fire_keeps_fresh; [done|lia]).
  destruct (fire_frame w) as (Hc & Hi & _).
  destruct (runs_last w (clock w)), (runs_first w (clock w + 1)).
  - apply fire_keeps_fresh; simpl; [done|]. rewrite Hi. lia.
  - done.
  - by apply fire_keeps_fresh.
  - done.
Qed.

Lemma tick_ms_no_timers (w : World) :
  timers w = ∅ -> timers (tick_ms w) = ∅ /\ cache (tick_ms w) = cache w.
Proof.
  intros Ht. unfold tick_ms, fire_if.
  destruct (fire_no_timers w Ht) as [Ht1 Hc1].
  destruct (runs_last w (clock w)), (runs_first w (clock w + 1)).
  - destruct (fire_no_timers (set_clock (clock w + 1) (fire w)) Ht1) as [-> ->]. done.
  - done.
  - by destruct (fire_no_timers (set_clock (clock w + 1) w) Ht) as [-> ->].
  - done.
Qed.

Lemma wait_S (n : nat) (w : World) : wait (S n) w = tick_ms (wait n w).
Proof. apply Nat.iter_succ. Qed.

Lemma wait_frame (n : nat) (w : World) :
  clock (wait n w) = clock w + Z.of_nat n /\ interval (wait n w) = interval w /\
  reapIntervalId (wait n w) = reapIntervalId w /\
  next_timer (wait n w) = next_timer w /\ remote (wait n w) = remote w /\
  requests (wait n w) = requests w /\ console (wait n w) = console w /\
  runs_first (wait n w) = runs_first w /\ runs_last (wait n w) = runs_last w.
Proof.
  induction n as [|n IH].
  - unfold wait; simpl. repeat split; lia.
  - rewrite wait_S.
    destruct (tick_ms_frame (wait n w)) as (-> & -> & -> & -> & -> & -> & -> & -> & ->).
    destruct IH as (-> & IH). repeat split; try apply IH. lia.
Qed.

Lemma wait_clock (n : nat) (w : World) : clock (wait n w) = clock w + Z.of_nat n.
Proof. apply wait_frame. Qed.

Lemma wait_interval (n : nat) (w : World) : interval (wait n w) = interval w.
Proof. apply wait_frame. Qed.

Lemma wait_requests (n : nat) (w : World) : requests (wait n w) = requests w.
Proof. apply wait_frame. Qed.

(** Waiting never adds an entry and never changes one. *)
Lemma wait_lookup_Some (n : nat) (w : World) (k : string) (e : CacheEntry) :
  cache (wait n w) !! k = Some e -> cache w !! k = Some e.
Proof.
  induction n as [|n IH]; [done|].
  rewrite wait_S. intros H. by apply IH, tick_ms_lookup_Some.
Qed.

(** An entry no older than the interval survives every sweep. *)
Lemma wait_keeps_fresh (n : nat) (w : World) (k : string) (e : CacheEntry) :
  cache w !! k = Some e ->
  clock w + Z.of_nat n <= createdAt e + interval w ->
  cache (wait n w) !! k = Some e.
Proof.
  intros Hk. induction n as [|n IH]; intros Hn; [done|].
  rewrite wait_S. apply tick_ms_keeps_fresh; [apply IH; lia|].
  rewrite wait_clock, wait_interval. lia.
Qed.

(** Without a timer nothing is ever swept. *)
Lemma wait_no_timers (n : nat) (w : World) :
  timers w = ∅ -> timers (wait n w) = ∅ /\ cache (wait n w) = cache w.
Proof.
  intros Ht. induction n as [|n [IHt IHc]]; [done|].
  rewrite wait_S. destruct (tick_ms_no_timers _ IHt) as [-> ->]. done.
Qed.

(** The logs do not influence the loop. *)
Lemma reap_iter_set_requests (n : nat) (l : list string) (w : World) :
  Nat.iter n (exec Cache.reap) (set_requests l w) =
  set_requests l (Nat.iter n (exec Cache.reap) w).
Proof.
  induction n as [|n IH]; [done|].
  rewrite !Nat.iter_succ, IH. reflexivity.
Qed.

Lemma reap_iter_set_console (n : nat) (l : list string) (w : World) :
  Nat.iter n (exec Cache.reap) (set_console l w) =
  set_console l (Nat.iter n (exec Cache.reap) w).
Proof.
  induction n as [|n IH]; [done|].
  rewrite !Nat.iter_succ, IH. reflexivity.
Qed.

Lemma fire_set_requests (l : list string) (w : World) :
  fire (set_requests l w) = set_requests l (fire w).
Proof. unfold fire. simpl. by rewrite <- reap_iter_set_requests. Qed.

Lemma fire_set_console (l : list string) (w : World) :
  fire (set_console l w) = set_console l (fire w).
Proof. unfold fire. simpl. by rewrite <- reap_iter_set_console. Qed.

Lemma tick_ms_set_requests (l : list string) (w : World) :
  tick_ms (set_requests l w) = set_requests l (tick_ms w).
Proof.
  unfold tick_ms, fire_if. simpl.
  destruct (runs_last w (clock w)), (runs_first w (clock w + 1));
    rewrite ?fire_set_requests; try done.
  - change (set_clock (clock w + 1) (set_requests l (fire w)))
      with (set_requests l (set_clock (clock w + 1) (fire w))).
    by rewrite fire_set_requests.
  - change (set_clock (clock w + 1) (set_requests l w))
      with (set_requests l (set_clock (clock w + 1) w)).
    by rewrite fire_set_requests.
Qed.

Lemma tick_ms_set_console (l : list string) (w : World) :
  tick_ms (set_console l w) = set_console l (tick_ms w).
Proof.
  unfold tick_ms, fire_if. simpl.
  destruct (runs_last w (clock w)), (runs_first w (clock w + 1));
    rewrite ?fire_set_console; try done.
  - change (set_clock (clock w + 1) (set_console l (fire w)))
      with (set_console l (set_clock (clock w + 1) (fire w))).
    by rewrite fire_set_console.
  - change (set_clock (clock w + 1) (set_console l w))
      with (set_console l (set_clock (clock w + 1) w)).
    by rewrite fire_set_console.
Qed.

Lemma wait_set_requests (n : nat) (l : list string) (w : World) :
  wait n (set_requests l w) = set_requests l (wait n w).
Proof.
  induction n as [|n IH]; [done|].
  by rewrite !wait_S, IH, tick_ms_set_requests.
Qed.

Lemma wait_set_console (n : nat) (l : list string) (w : World) :
  wait n (set_console l w) = set_console l (wait n w).
Proof.
  induction n as [|n IH]; [done|].
  by rewrite !wait_S, IH, tick_ms_set_console.
Qed.

(** ** A running sweep *)

Lemma fired_size (now : Z) (ts : gmap nat Timer) (id : nat) (tm : Timer) :
  ts !! id = Some tm -> due tm <= now -> exists n, size (fired now ts) = S n.
Proof.
  intros Hid Hdue.
  assert (size (fired now ts) <> 0%nat) as Hne.
  { apply (map_size_ne_0_lookup_2 _ id). exists tm.
    unfold fired. by apply map_lookup_filter_Some_2. }
  destruct (size (fired now ts)) as [|n]; [done|]. by exists n.
Qed.

Lemma doomed_sweeping (k : string) (w : World) : doomed k w -> sweeping w.
Proof. intros (id & tm & ? & ? & ? & ? & ? & _). by exists id, tm. Qed.

Lemma doomed_fire (k : string) (w : World) : doomed k w -> doomed k (fire w).
Proof.
  intros (id & tm & Hh & Htm & Hd & HT & Hdue & Hk).
  exists id, (rearm (clock w) tm).
  destruct (fire_frame w) as (Hc & Hi & Hr & _).
  rewrite Hc, Hi, Hr, (fire_timer w id tm Htm), fire_lookup.
  unfold rearm. case_bool_decide as Hfire; simpl.
  - destruct (fired_size _ _ _ _ Htm Hfire) as [n ->].
    refine (conj Hh (conj eq_refl (conj Hd (conj HT (conj _ _))))); [lia|].
    destruct (cache w !! k) as [e|]; [|done].
    unfold survives. case_bool_decide; simpl; [done|lia].
  - refine (conj Hh (conj eq_refl (conj Hd (conj HT (conj Hdue _))))).
    destruct (size _).
    + exact Hk.
    + destruct (cache w !! k) as [e|]; [|done]. by destruct (survives _ e).
Qed.

Lemma fire_if_clock (b : bool) (w : World) : clock (fire_if b w) = clock w.
Proof. destruct b; [apply fire_frame|done]. Qed.

(** What the firing of the due timers and the passing of time both keep,
    waiting keeps. *)
Lemma wait_invariant (I : World -> Prop) :
  (forall w, I w -> I (fire w)) ->
  (forall w t, clock w <= t -> I w -> I (set_clock t w)) ->
  forall n w, I w -> I (wait n w).
Proof.
  intros Hfire Hclock n w Hw. induction n as [|n IH]; [done|].
  rewrite wait_S. unfold tick_ms.
  assert (forall b w', I w' -> I (fire_if b w')) as Hif
    by (intros [] w' ?; [by apply Hfire|done]).
  apply Hif, Hclock; [|by apply Hif].
  rewrite fire_if_clock. lia.
Qed.

Lemma doomed_advance (k : string) (w : World) (t : Z) :
  clock w <= t -> doomed k w -> doomed k (set_clock t w).
Proof.
  intros Ht (id & tm & Hh & Htm & Hd & HT & Hdue & Hk). exists id, tm. simpl.
  refine (conj Hh (conj Htm (conj Hd (conj HT (conj _ Hk))))). lia.
Qed.

Lemma doomed_wait (k : string) (n : nat) (w : World) : doomed k w -> doomed k (wait n w).
Proof.
  apply (wait_invariant (doomed k)).
  - apply doomed_fire.
  - intros w' t. apply doomed_advance.
Qed.

Lemma sweeping_fire (w : World) : sweeping w -> sweeping (fire w).
Proof.
  intros (id & tm & Hh & Htm & Hd & HT & Hdue).
  exists id, (rearm (clock w) tm).
  destruct (fire_frame w) as (Hc & Hi & Hr & _).
  rewrite Hc, Hi, Hr, (fire_timer w id tm Htm).
  unfold rearm. case_bool_decide; simpl.
  - refine (conj Hh (conj eq_refl (conj Hd (conj HT _)))). lia.
  - by refine (conj Hh (conj eq_refl (conj Hd (conj HT _)))).
Qed.

Lemma sweeping_wait (n : nat) (w : World) : sweeping w -> sweeping (wait n w).
Proof.
  apply (wait_invariant sweeping).
  - apply sweeping_fire.
  - intros w' t Ht (id & tm & Hh & Htm & Hd & HT & Hdue). exists id, tm. simpl.
    refine (conj Hh (conj Htm (conj Hd (conj HT _)))). lia.
Qed.

(** An entry two intervals old finds the sweep due, and the sweep removes
    it. *)
Lemma doomed_fire_gone (k : string) (w : World) (e : CacheEntry) :
  doomed k w -> cache w !! k = Some e ->
  createdAt e + 2 * interval w <= clock w ->
  cache (fire w) !! k = None.
Proof.
  intros (id & tm & Hh & Htm & Hd & HT & Hdue & Hk) He Hage.
  rewrite He in Hk. rewrite fire_lookup, He.
  destruct (fired_size (clock w) _ _ _ Htm ltac:(lia)) as [n ->].
  unfold survives. rewrite bool_decide_eq_true_2 by lia. done.
Qed.

Lemma doomed_gone (k : string) (n : nat) (w : World) (e : CacheEntry) :
  doomed k w -> cache w !! k = Some e ->
  createdAt e + 2 * interval w <= clock w + Z.of_nat n ->
  cache (fire (wait n w)) !! k = None.
Proof.
  intros Hd Hk Hn.
  destruct (cache (wait n w) !! k) as [e'|] eqn:E.
  - pose proof (wait_lookup_Some _ _ _ _ E) as Hk'.
    assert (e' = e) as -> by congruence.
    apply (doomed_fire_gone k _ e); [by apply doomed_wait|done|].
    rewrite wait_clock, wait_interval. lia.
  - destruct (cache (fire (wait n w)) !! k) as [e'|] eqn:E'; [|done].
    apply fire_lookup_Some in E'. congruence.
Qed.

(** ** Methods of [Cache] as world transformers *)

Lemma get_result (k : string) (w : World) :
  result (Cache.get k) w = Return (cached k w).
Proof.
  unfold result, cached, Cache.get, gets, mbind, M_bind. simpl.
  by destruct (cache w !! k).
Qed.

Lemma get_exec (k : string) (w : World) : exec (Cache.get k) w = w.
Proof.
  unfold exec, Cache.get, gets, mbind, M_bind. simpl.
  by destruct (cache w !! k).
Qed.

Lemma add_exec (k : string) (v : JSValue) (w : World) :
  exec (Cache.add k v) w = set_cache (<[k := mkEntry (clock w) v]> (cache w)) w.
Proof. reflexivity. Qed.

Lemma stop_exec (w : World) :
  exec Cache.stopReapLoop w =
  match reapIntervalId w with
  | Some id => set_reapIntervalId None (set_timers (delete id (timers w)) w)
  | None => w
  end.
Proof.
  unfold exec, Cache.stopReapLoop, gets, mbind, M_bind. simpl.
  by destruct (reapIntervalId w).
Qed.

Lemma stop_result (w : World) : result Cache.stopReapLoop w = Return tt.
Proof.
  unfold result, Cache.stopReapLoop, gets, mbind, M_bind. simpl.
  by destruct (reapIntervalId w).
Qed.

Lemma constructor_exec (i : Z) (w : World) :
  exec (Cache.constructor i) w =
  mkWorld (clock w) ∅ (Some (next_timer w)) i
          (<[next_timer w := mkTimer (timer_delay i) (clock w + timer_delay i)]> (timers w))
          (S (next_timer w)) (remote w) (requests w) (console w)
          (runs_first w) (runs_last w).
Proof. reflexivity. Qed.

Lemma timer_delay_id (i : Z) : 0 < i <= TIMEOUT_MAX -> timer_delay i = i.
Proof.
  intros Hi. unfold timer_delay.
  destruct (1 <=? i) eqn:E1; [|lia]. destruct (i <=? TIMEOUT_MAX) eqn:E2; [done|lia].
Qed.

Lemma constructor_result (i : Z) (w : World) :
  result (Cache.constructor i) w = Return tt.
Proof. reflexivity. Qed.

Lemma constructor_boot_owned (i t : Z) (srv : string -> Reply) :
  owned (exec (Cache.constructor i) (boot t srv)).
Proof.
  intros id. rewrite constructor_exec. simpl.
  rewrite lookup_insert. case_decide as H; [by rewrite H|].
  rewrite lookup_empty. by intros [? ?].
Qed.

Lemma constructor_sweeping (i : Z) (w : World) :
  0 < i <= TIMEOUT_MAX -> sweeping (exec (Cache.constructor i) w).
Proof.
  intros Hi. exists (next_timer w), (mkTimer i (clock w + i)).
  rewrite constructor_exec, (timer_delay_id i Hi). simpl. rewrite lookup_insert_eq.
  repeat split; try done; lia.
Qed.

Lemma add_doomed (k : string) (v : JSValue) (w : World) :
  sweeping w -> doomed k (exec (Cache.add k v) w).
Proof.
  intros (id & tm & ? & ? & ? & ? & ?). exists id, tm.
  rewrite add_exec. simpl. rewrite lookup_insert_eq. simpl.
  repeat split; try done; lia.
Qed.

(** ** Claims about [Cache] *)

(** C4. For all keys [k] and values [v], [add(k, v)] followed immediately by
    [get(k)] returns [v]; [add] returns nothing, never throws and never
    evicts another entry, whatever the size of the map. *)
Theorem add_then_get (k : string) (v : JSValue) (w : World) :
  result (Cache.add k v) w = Return tt /\
  result (Cache.get k) (exec (Cache.add k v) w) = Return v /\
  delete k (cache (exec (Cache.add k v) w)) = delete k (cache w).
Proof.
  split; [reflexivity|]. split.
  - rewrite get_result, add_exec. unfold cached. simpl.
    by rewrite lookup_insert_eq.
  - rewrite add_exec. simpl. apply delete_insert_eq.
Qed.

(** C10. [get] never mutates the cache: for every key, present, absent or
    expired, the world after [get] is the world before it; in particular no
    entry is deleted, none changes value or timestamp. *)
Theorem get_never_mutates (k : string) (w : World) :
  exec (Cache.get k) w = w.
Proof. apply get_exec. Qed.

(** C7. [stopReapLoop] is idempotent: any number of calls in a row succeed
    and leave the world the first call left; after the first call the handle
    is cleared, the timer it named is gone from the runtime, and (when the
    runtime has no timer but the cache's own) no sweep ever runs again. *)
Theorem stopReapLoop_idempotent (n : nat) (w : World) :
  result Cache.stopReapLoop (Nat.iter n (exec Cache.stopReapLoop) w) = Return tt /\
  Nat.iter (S n) (exec Cache.stopReapLoop) w = exec Cache.stopReapLoop w /\
  reapIntervalId (exec Cache.stopReapLoop w) = None /\
  match reapIntervalId w with
  | Some id => timers (exec Cache.stopReapLoop w) !! id = None
  | None => timers (exec Cache.stopReapLoop w) = timers w
  end /\
  (owned w ->
   timers (exec Cache.stopReapLoop w) = ∅ /\
   forall ms, cache (wait ms (exec Cache.stopReapLoop w)) = cache w).
Proof.
  split; [apply stop_result|]. split.
  { induction n as [|n IH]; [done|].
    rewrite Nat.iter_succ, IH, !stop_exec.
    destruct (reapIntervalId w) eqn:E; simpl; [done|by rewrite E]. }
  split.
  { rewrite stop_exec. by destruct (reapIntervalId w) eqn:E. }
  split.
  { rewrite stop_exec. destruct (reapIntervalId w) as [id|]; [|done].
    simpl. apply lookup_delete_eq. }
  intros Hown.
  assert (timers (exec Cache.stopReapLoop w) = ∅) as Hnone.
  { apply map_eq. intros id'. rewrite lookup_empty, stop_exec.
    destruct (reapIntervalId w) as [id|] eqn:E; simpl.
    - destruct (decide (id = id')) as [->|Hne]; [apply lookup_delete_eq|].
      rewrite lookup_delete_ne by done.
      destruct (timers w !! id') eqn:E'; [|done].
      assert (Some id = Some id') by (rewrite <- E; apply Hown; eauto).
      congruence.
    - destruct (timers w !! id') eqn:E'; [|done].
      assert (reapIntervalId w = Some id') by (apply Hown; eauto). congruence. }
  split; [done|]. intros ms.
  destruct (wait_no_timers ms _ Hnone) as [_ ->].
  rewrite stop_exec. by destruct (reapIntervalId w).
Qed.

(** C9, as the code has it.  The constructor validates nothing: for every
    interval, positive, zero or negative, it returns normally with an empty
    map, the interval stored as given and the sweep timer armed at once, with
    the interval as its period (the runtime's period is 1 ms for an interval
    below 1 ms or above 2147483647 ms). *)
Theorem constructor_accepts_any_interval (i : Z) (w : World) :
  result (Cache.constructor i) w = Return tt /\
  cache (exec (Cache.constructor i) w) = ∅ /\
  interval (exec (Cache.constructor i) w) = i /\
  reapIntervalId (exec (Cache.constructor i) w) = Some (next_timer w) /\
  timers (exec (Cache.constructor i) w) !! next_timer w =
    Some (if (1 <=? i) && (i <=? 2147483647)
          then mkTimer i (clock w + i) else mkTimer 1 (clock w + 1)).
Proof.
  rewrite constructor_exec. simpl. rewrite lookup_insert_eq.
  unfold timer_delay, TIMEOUT_MAX.
  by destruct ((1 <=? i) && (i <=? 2147483647)).
Qed.

(** C9 as stated fails: a zero interval is not rejected. *)
Lemma constructor_zero_not_rejected :
  ~ (forall (i : Z) (w : World), i <= 0 ->
       exists e, result (Cache.constructor i) w = Throw e).
Proof.
  intros H. destruct (H 0 (boot 0 test_server)) as [e He]; [lia|].
  rewrite constructor_result in He. discriminate.
Qed.

Lemma add_owned (k : string) (v : JSValue) (w : World) :
  owned w -> owned (exec (Cache.add k v) w).
Proof. intros H id. rewrite add_exec. apply H. Qed.

Lemma test_world_owned : owned test_world.
Proof. apply add_owned, constructor_boot_owned. Qed.

Lemma stopReapLoop_idempotent_test :
  owned test_world /\ timers (exec Cache.stopReapLoop test_world) = ∅.
Proof.
  split; [exact test_world_owned|].
  destruct (stopReapLoop_idempotent 2 test_world) as (_ & _ & _ & _ & H).
  apply H. exact test_world_owned.
Defined.



Lemma wait_add_fresh (k : string) (v : JSValue) (w : World) (ms : nat) :
  Z.of_nat ms <= interval w ->
  cache (wait ms (exec (Cache.add k v) w)) !! k = Some (mkEntry (clock w) v).
Proof.
  intros Hms. apply wait_keeps_fresh.
  - rewrite add_exec. simpl. apply lookup_insert_eq.
  - rewrite add_exec. simpl. lia.
Qed.

Lemma test_world_past_ttl :
  clock (wait 101 test_world) = 101 /\ interval (wait 101 test_world) = 100 /\
  result (Cache.get "a") (wait 101 test_world) = Return (JString "x").
Proof. vm_compute. done. Qed.

(** C1 as stated fails: 101 ms after an entry was added to a cache of
    interval 100 ms whose sweep is running (it ran at 100 ms), [get] still
    returns the entry. *)
Lemma get_returns_entry_past_ttl :
  ~ (forall (k : string) (v : JSValue) (w : World) (ms : nat),
       interval w < Z.of_nat ms ->
       result (Cache.get k) (wait ms (exec (Cache.add k v) w)) = Return JUndefined).
Proof.
  intros H.
  specialize (H "a" (JString "x") (exec (Cache.constructor 100) (boot 0 test_server)) 101%nat).
  fold test_world in H.
  destruct test_world_past_ttl as (_ & _ & Hget). rewrite Hget in H.
  discriminate H. rewrite constructor_exec. simpl. lia.
Qed.

(** C1, as the code has it.  [get] looks at the map only, never at the
    clock.  After [add(k, v)] it returns [v] for as long as the entry is in
    the map: at least until one interval has passed, and for ever when no
    sweep runs; it returns [undefined] once a sweep has run later than one
    interval after the [add]. *)
Theorem get_expires_by_sweep_only (k : string) (v : JSValue) (w : World) :
  (forall t, result (Cache.get k) (set_clock t w) = result (Cache.get k) w) /\
  (forall ms : nat, Z.of_nat ms <= interval w ->
     result (Cache.get k) (wait ms (exec (Cache.add k v) w)) = Return v) /\
  (timers w = ∅ -> forall ms : nat,
     result (Cache.get k) (wait ms (exec (Cache.add k v) w)) = Return v) /\
  (forall ms ms' : nat, interval w < Z.of_nat ms ->
     result (Cache.get k)
       (wait ms' (exec Cache.reap (wait ms (exec (Cache.add k v) w)))) =
     Return JUndefined).
Proof.
  split; [by intros t; rewrite !get_result|]. split; [|split].
  - intros ms Hms. rewrite get_result. unfold cached.
    by rewrite wait_add_fresh.
  - intros Ht ms. rewrite get_result. unfold cached.
    destruct (wait_no_timers ms (exec (Cache.add k v) w)) as [_ ->]; [done|].
    rewrite add_exec. simpl. by rewrite lookup_insert_eq.
  - intros ms ms' Hms. rewrite get_result. unfold cached.
    set (w1 := wait ms (exec (Cache.add k v) w)).
    assert (cache (exec Cache.reap w1) !! k = None) as Hgone.
    { rewrite reap_lookup.
      destruct (cache w1 !! k) as [e|] eqn:E; [|done].
      apply wait_lookup_Some in E. rewrite add_exec in E. simpl in E.
      rewrite lookup_insert_eq in E. injection E as <-.
      subst w1. rewrite wait_clock, wait_interval, add_exec. simpl.
      unfold survives. simpl. rewrite bool_decide_eq_true_2 by lia. done. }
    destruct (cache (wait ms' _) !! k) as [e|] eqn:E; [|done].
    apply wait_lookup_Some in E. congruence.
Qed.

Lemma get_expires_by_sweep_only_test :
  interval (exec (Cache.constructor 100) (boot 0 test_server)) < Z.of_nat 101 /\
  result (Cache.get "a") (wait 0 (exec Cache.reap (wait 101 test_world))) =
  Return JUndefined.
Proof.
  split; [simpl; lia|].
  destruct (get_expires_by_sweep_only "a" (JString "x")
              (exec (Cache.constructor 100) (boot 0 test_server))) as (_ & _ & _ & H).
  apply (H 101%nat 0%nat). simpl. lia.
Defined.

(** C6. [add] on a key that has an entry replaces it: the map holds one
    entry for the key, with the new value and the time of this [add], and has
    as many entries as before.  So on a cache of interval [T], after
    [add(k, v1)] at [t0] and [add(k, v2)] at [t0 + T/2], a [get(k)] at
    [t0 + T + eps] returns [v2] (for [eps] up to [T/2], whatever sweeps
    ran). *)
Theorem overwrite_resets_freshness (k : string) (v1 v2 : JSValue) (w : World) (eps : Z) :
  0 < interval w -> 0 < eps <= interval w / 2 ->
  let T := interval w in
  let w1 := wait (Z.to_nat (T / 2)) (exec (Cache.add k v1) w) in
  let w2 := exec (Cache.add k v2) w1 in
  let w3 := wait (Z.to_nat (T - T / 2 + eps)) w2 in
  cache w1 !! k = Some (mkEntry (clock w) v1) /\
  cache w2 !! k = Some (mkEntry (clock w + T / 2) v2) /\
  size (cache w2) = size (cache w1) /\
  clock w3 = clock w + T + eps /\
  result (Cache.get k) w3 = Return v2.
Proof.
  intros HT Heps T w1 w2 w3.
  assert (0 <= T / 2 <= T) as Hhalf.
  { subst T. split; [apply Z.div_pos; lia|]. apply Z.div_le_upper_bound; lia. }
  assert (cache w1 !! k = Some (mkEntry (clock w) v1)) as H1.
  { subst w1. apply wait_add_fresh. fold T. lia. }
  assert (clock w1 = clock w + T / 2) as Hc1.
  { subst w1. rewrite wait_clock, add_exec. simpl. lia. }
  assert (cache w2 !! k = Some (mkEntry (clock w + T / 2) v2)) as H2.
  { subst w2. rewrite add_exec, Hc1. simpl. apply lookup_insert_eq. }
  assert (interval w1 = T) as Hi1.
  { subst w1. by rewrite wait_interval, add_exec. }
  split; [done|]. split; [done|]. split.
  { subst w2. rewrite add_exec. simpl. by eapply map_size_insert_Some. }
  split.
  { subst w3. rewrite wait_clock. subst w2. rewrite add_exec. simpl. lia. }
  rewrite get_result. unfold cached. subst w3.
  rewrite (wait_keeps_fresh _ w2 k (mkEntry (clock w + T / 2) v2)); [done|done|].
  subst w2. rewrite add_exec. simpl. rewrite Hc1, Hi1. subst T. lia.
Qed.

Lemma overwrite_resets_freshness_test :
  result (Cache.get "a")
    (wait 51 (exec (Cache.add "a" (JString "y")) (wait 50 test_world))) =
  Return (JString "y").
Proof.
  apply (overwrite_resets_freshness "a" (JString "x") (JString "y")
           (exec (Cache.constructor 100) (boot 0 test_server)) 1).
  - simpl. lia.
  - simpl. split; [lia|]. vm_compute. discriminate.
Defined.

(** ** The cache-aside client *)

Lemma cache_aside_hit (url : string) (w : World) :
  truthy (cached url w) = true ->
  cache_aside url w =
  (Return (cached url w), set_console (console w ++ ["Cache hit for: " +:+ url]) w).
Proof.
  intros Hhit. unfold cache_aside, mbind, M_bind.
  pose proof (get_result url w) as Hr. pose proof (get_exec url w) as He.
  unfold result, exec in Hr, He.
  destruct (Cache.get url w) as [c w']. simpl in Hr, He. subst c w'.
  by rewrite Hhit.
Qed.

Lemma cache_aside_miss (url : string) (w : World) :
  truthy (cached url w) = false ->
  cache_aside url w =
  match outcome (remote w url) with
  | None => (Throw (TypeError (failure (remote w url))), settled url w)
  | Some r =>
      if ok r then
        let w3 := wait (body_latency r) (settled url w) in
        match body r with
        | None => (Throw (SyntaxError (body_error r)), w3)
        | Some data =>
            (Return data, set_cache (<[url := mkEntry (clock w3) data]> (cache w3)) w3)
        end
      else (Throw (PokeAPI.http_error r), settled url w)
  end.
Proof.
  intros Hmiss. unfold cache_aside, mbind, M_bind.
  pose proof (get_result url w) as Hr. pose proof (get_exec url w) as He.
  unfold result, exec in Hr, He.
  destruct (Cache.get url w) as [c w']. simpl in Hr, He. subst c w'.
  rewrite Hmiss. unfold settled, fetch, json, console_log, sleep, modify, gets,
    throw, mbind, M_bind, mret, M_ret. simpl.
  destruct (outcome (remote w url)) as [r|]; [|done].
  destruct (ok r); simpl; [|done].
  by destruct (body r).
Qed.

Lemma fetch_by_name_aside (res : Resource) (name : string) :
  fetch_by_name res name = cache_aside (resource_url res name).
Proof. by destruct res. Qed.

Lemma fetchLocations_aside (pageURL : option string) :
  PokeAPI.fetchLocations pageURL =
  cache_aside (PokeAPI.or_default pageURL first_page_url).
Proof. reflexivity. Qed.

Lemma settled_frame (url : string) (w : World) :
  requests (settled url w) = requests w ++ [url] /\
  cache (settled url w) = cache (wait (latency (remote w url)) w) /\
  interval (settled url w) = interval w.
Proof.
  unfold settled. rewrite wait_set_requests, wait_set_console. simpl.
  by rewrite wait_interval.
Qed.

Lemma cached_falsy_wait (url : string) (n : nat) (w : World) :
  truthy (cached url w) = false -> truthy (cached url (wait n w)) = false.
Proof.
  unfold cached. intros H.
  destruct (cache (wait n w) !! url) as [e|] eqn:E; [|done].
  apply wait_lookup_Some in E. by rewrite E in H.
Qed.

Lemma cache_aside_keyed (url : string) : keyed_by (cache_aside url) url.
Proof.
  intros w. split; intros H; unfold result, exec.
  - by rewrite cache_aside_hit.
  - rewrite cache_aside_miss by done.
    destruct (settled_frame url w) as (Hreq & _ & _).
    destruct (outcome (remote w url)) as [r|]; simpl; [|done].
    destruct (ok r); simpl; [|done].
    destruct (body r) as [d|]; simpl.
    + rewrite wait_requests. split; [done|].
      intros data [= ->]. apply lookup_insert_eq.
    + by rewrite wait_requests.
Qed.

(** ** Claims about [PokeAPI] *)

(** C8. The URL requested, which is also the cache key, is a function of the
    call's input alone: the first-page URL with [offset=0&limit=20] for the
    list fetch without argument, the given URL for the list fetch with a
    (non-empty) page URL, and the name appended to the operation's fixed path
    for the fetches by name. *)
Theorem request_url_from_input :
  keyed_by (PokeAPI.fetchLocations None)
    "https://pokeapi.co/api/v2/location-area?offset=0&limit=20" /\
  (forall u : string, u <> "" -> keyed_by (PokeAPI.fetchLocations (Some u)) u) /\
  (forall name : string,
     keyed_by (PokeAPI.fetchLocation name)
       ("https://pokeapi.co/api/v2/location-area/" +:+ name)) /\
  (forall name : string,
     keyed_by (PokeAPI.fetchPokemon name)
       ("https://pokeapi.co/api/v2/pokemon/" +:+ name)).
Proof.
  split; [|split; [|split]].
  - rewrite fetchLocations_aside. apply cache_aside_keyed.
  - intros u Hu. rewrite fetchLocations_aside.
    destruct u as [|a u]; [done|]. apply cache_aside_keyed.
  - intros name. apply (cache_aside_keyed (resource_url LocationArea name)).
  - intros name. apply (cache_aside_keyed (resource_url Pokemon name)).
Qed.

Lemma request_url_from_input_test :
  requests (exec (PokeAPI.fetchLocations (Some "https://pokeapi.co/api/v2/location-area?offset=20&limit=20"))
              (exec PokeAPI.constructor (boot 0 test_server))) =
  ["https://pokeapi.co/api/v2/location-area?offset=20&limit=20"].
Proof.
  destruct request_url_from_input as (_ & H & _).
  apply (H "https://pokeapi.co/api/v2/location-area?offset=20&limit=20" ltac:(discriminate)
           (exec PokeAPI.constructor (boot 0 test_server))).
  reflexivity.
Defined.

(** C2. A fetch by name that misses the cache and gets a non-success status
    throws an error carrying the status code; it requests the URL once and
    leaves the cache as the mere passing of time would have, with no entry
    written for the URL; so the next call for the same name, whenever it
    comes and whatever the server then answers, requests the URL again. *)
Theorem failed_fetch_not_cached (res : Resource) (name : string) (w : World) (r : Response) :
  let url := resource_url res name in
  let op := fetch_by_name res name in
  truthy (cached url w) = false ->
  outcome (remote w url) = Some r ->
  ok r = false ->
  result op w = Throw (Error ("HTTP error! status: " +:+ pretty (status r))) /\
  requests (exec op w) = requests w ++ [url] /\
  cache (exec op w) = cache (wait (latency (remote w url)) w) /\
  (forall e, cache (exec op w) !! url = Some e -> cache w !! url = Some e) /\
  forall (srv : string -> Reply) (ms : nat),
    requests (exec op (set_remote srv (wait ms (exec op w)))) = requests w ++ [url; url].
Proof.
  intros url op Hmiss Hout Hok. subst op. rewrite fetch_by_name_aside. fold url.
  assert (cache_aside url w = (Throw (PokeAPI.http_error r), settled url w)) as Hrun.
  { by rewrite cache_aside_miss, Hout, Hok. }
  assert (exec (cache_aside url) w = settled url w) as -> by (unfold exec; by rewrite Hrun).
  assert (result (cache_aside url) w = Throw (PokeAPI.http_error r)) as ->
    by (unfold result; by rewrite Hrun).
  destruct (settled_frame url w) as (Hreq & Hcache & _).
  split; [done|]. split; [done|]. split; [done|]. split.
  { intros e. rewrite Hcache. apply wait_lookup_Some. }
  intros srv ms.
  assert (truthy (cached url (set_remote srv (wait ms (settled url w)))) = false) as Hmiss'.
  { change (truthy (cached url (wait ms (settled url w))) = false).
    apply cached_falsy_wait. unfold cached. rewrite Hcache.
    apply (cached_falsy_wait url _ w Hmiss). }
  destruct (cache_aside_keyed url (set_remote srv (wait ms (settled url w)))) as [_ Hk].
  destruct (Hk Hmiss') as [-> _]. simpl.
  rewrite wait_requests, Hreq, <- app_assoc. done.
Qed.

Lemma failed_fetch_not_cached_test :
  result (PokeAPI.fetchPokemon "missingno") (exec PokeAPI.constructor (boot 0 test_server)) =
  Throw (Error "HTTP error! status: 404").
Proof.
  apply (failed_fetch_not_cached Pokemon "missingno"
           (exec PokeAPI.constructor (boot 0 test_server)) (mkResponse 404 None "Unexpected end of JSON input" 0));
    reflexivity.
Defined.

(** C3. A fetch by name that misses the cache and gets a success status with
    a decodable record requests the URL exactly once, returns the record and
    stores it under the URL; a second call for the same name no later than
    one interval after that requests nothing and returns the same record. *)
Theorem fetch_miss_then_hit (res : Resource) (name : string) (w : World)
    (r : Response) (data : JSValue) :
  let url := resource_url res name in
  let op := fetch_by_name res name in
  truthy (cached url w) = false ->
  outcome (remote w url) = Some r ->
  ok r = true ->
  body r = Some data ->
  truthy data = true ->
  result op w = Return data /\
  requests (exec op w) = requests w ++ [url] /\
  cache (exec op w) !! url = Some (mkEntry (clock (exec op w)) data) /\
  forall (srv : string -> Reply) (ms : nat),
    Z.of_nat ms <= interval w ->
    result op (set_remote srv (wait ms (exec op w))) = Return data /\
    requests (exec op (set_remote srv (wait ms (exec op w)))) = requests w ++ [url].
Proof.
  intros url op Hmiss Hout Hok Hbody Hdata. subst op.
  rewrite fetch_by_name_aside. fold url.
  set (w3 := wait (body_latency r) (settled url w)).
  set (w' := set_cache (<[url := mkEntry (clock w3) data]> (cache w3)) w3).
  assert (cache_aside url w = (Return data, w')) as Hrun.
  { by rewrite cache_aside_miss, Hout, Hok, Hbody. }
  assert (exec (cache_aside url) w = w') as -> by (unfold exec; by rewrite Hrun).
  assert (result (cache_aside url) w = Return data) as ->
    by (unfold result; by rewrite Hrun).
  destruct (settled_frame url w) as (Hreq & _ & Hint).
  assert (requests w' = requests w ++ [url]) as Hreq'.
  { subst w' w3. simpl. by rewrite wait_requests. }
  split; [done|]. split; [done|]. split; [apply lookup_insert_eq|].
  intros srv ms Hms.
  assert (cache (wait ms w') !! url = Some (mkEntry (clock w3) data)) as Hkept.
  { apply wait_keeps_fresh; [apply lookup_insert_eq|].
    subst w' w3. simpl. rewrite wait_interval, Hint. lia. }
  assert (cached url (set_remote srv (wait ms w')) = data) as Hc.
  { unfold cached. simpl. by rewrite Hkept. }
  unfold result, exec. rewrite cache_aside_hit by (by rewrite Hc). simpl.
  by rewrite Hc, wait_requests.
Qed.

Lemma fetch_miss_then_hit_test :
  requests
    (exec (PokeAPI.fetchPokemon "pikachu")
       (wait 1000 (exec (PokeAPI.fetchPokemon "pikachu")
                     (exec PokeAPI.constructor (boot 0 test_server))))) =
  ["https://pokeapi.co/api/v2/pokemon/pikachu"].
Proof.
  destruct (fetch_miss_then_hit Pokemon "pikachu"
              (exec PokeAPI.constructor (boot 0 test_server))
              (mkResponse 200
                 (Some (JObject [("id", JNumber 25); ("name", JString "pikachu")])) "" 1)
              (JObject [("id", JNumber 25); ("name", JString "pikachu")])
              eq_refl eq_refl eq_refl eq_refl eq_refl) as (_ & _ & _ & H).
  apply (H test_server 1000%nat). simpl. lia.
Defined.

(** * Further properties *)

(** ** The three methods of [PokeAPI] as one *)

Lemma call_aside (c : Call) : call c = cache_aside (call_url c).
Proof. destruct c as [p|res name]; [apply fetchLocations_aside|apply fetch_by_name_aside]. Qed.

Lemma wait_subseteq (n : nat) (w : World) : cache (wait n w) ⊆ cache w.
Proof.
  apply map_subseteq_spec. intros k e. apply wait_lookup_Some.
Qed.

Lemma sweeping_settled (url : string) (w : World) : sweeping w -> sweeping (settled url w).
Proof. intros H. unfold settled. by apply sweeping_wait. Qed.

Lemma cached_falsy_subseteq (url : string) (w w' : World) :
  cache w' ⊆ cache w -> truthy (cached url w) = false -> truthy (cached url w') = false.
Proof.
  intros Hsub H. unfold cached in *.
  destruct (cache w' !! url) as [e|] eqn:E; [|done].
  by rewrite (lookup_weaken _ _ _ _ E Hsub) in H.
Qed.

Lemma call_result (c : Call) (w : World) : result (call c) w = (cache_aside (call_url c) w).1.
Proof. by rewrite call_aside. Qed.

Lemma call_exec (c : Call) (w : World) : exec (call c) w = (cache_aside (call_url c) w).2.
Proof. by rewrite call_aside. Qed.

(** A miss in a world whose map is within [w]'s requests the URL again. *)
Lemma call_again_requests (c : Call) (w w1 : World) (srv : string -> Reply) (ms : nat) :
  truthy (cached (call_url c) w) = false ->
  cache w1 ⊆ cache w ->
  requests (exec (call c) (set_remote srv (wait ms w1))) = requests w1 ++ [call_url c].
Proof.
  intros Hmiss Hsub. rewrite call_aside.
  destruct (cache_aside_keyed (call_url c) (set_remote srv (wait ms w1))) as [_ Hk].
  destruct Hk as [-> _]; [|by simpl; rewrite wait_requests].
  apply (cached_falsy_subseteq _ w); [|done].
  simpl. etrans; [apply wait_subseteq|done].
Qed.

(** A successful miss, whatever the value decoded. *)
Lemma call_miss_stores (c : Call) (w : World) (r : Response) (data : JSValue) :
  truthy (cached (call_url c) w) = false ->
  outcome (remote w (call_url c)) = Some r ->
  ok r = true ->
  body r = Some data ->
  call c w =
  (Return data,
   exec (Cache.add (call_url c) data) (wait (body_latency r) (settled (call_url c) w))).
Proof.
  intros Hmiss Hout Hok Hbody.
  by rewrite call_aside, cache_aside_miss, Hout, Hok, Hbody.
Qed.

(** ** More about [PokeAPI] *)

(** Whatever the reason a call fails (no response, bad status, bad body), it
    has requested the URL once and written nothing: every entry of the map
    afterwards was there before, unchanged.  So the next call for the same
    thing requests the URL again. *)
Theorem failed_call_writes_nothing (c : Call) (w : World) (e : Exn) :
  truthy (cached (call_url c) w) = false ->
  result (call c) w = Throw e ->
  cache (exec (call c) w) ⊆ cache w /\
  requests (exec (call c) w) = requests w ++ [call_url c] /\
  forall (srv : string -> Reply) (ms : nat),
    requests (exec (call c) (set_remote srv (wait ms (exec (call c) w)))) =
    requests w ++ [call_url c; call_url c].
Proof.
  intros Hmiss Hthrow.
  assert (cache (exec (call c) w) ⊆ cache w /\
          requests (exec (call c) w) = requests w ++ [call_url c]) as [Hsub Hreq].
  { rewrite call_result in Hthrow. rewrite call_exec.
    rewrite cache_aside_miss in * by done.
    destruct (settled_frame (call_url c) w) as (Hr & Hc & _).
    assert (cache (settled (call_url c) w) ⊆ cache w) as Hs
      by (rewrite Hc; apply wait_subseteq).
    destruct (outcome (remote w (call_url c))) as [r|]; [|done].
    destruct (ok r); [|done].
    destruct (body r) as [d|]; [done|]. simpl. split.
    - etrans; [apply wait_subseteq|done].
    - by rewrite wait_requests. }
  split; [done|]. split; [done|]. intros srv ms.
  rewrite (call_again_requests c w) by done.
  by rewrite Hreq, <- app_assoc.
Qed.

Lemma failed_call_writes_nothing_test :
  requests (exec (call (ByName LocationArea "nowhere"))
              (exec (call (ByName LocationArea "nowhere"))
                 (exec PokeAPI.constructor (boot 0 test_server)))) =
  ["https://pokeapi.co/api/v2/location-area/nowhere";
   "https://pokeapi.co/api/v2/location-area/nowhere"].
Proof.
  destruct (failed_call_writes_nothing (ByName LocationArea "nowhere")
              (exec PokeAPI.constructor (boot 0 test_server))
              (Error "HTTP error! status: 404") eq_refl eq_refl) as (_ & _ & H).
  apply (H test_server 0%nat).
Defined.

Lemma call_hit_again (c : Call) (w1 : World) (data : JSValue) (t : Z)
    (srv : string -> Reply) (ms : nat) :
  cache w1 !! call_url c = Some (mkEntry t data) ->
  truthy data = true ->
  clock w1 + Z.of_nat ms <= t + interval w1 ->
  call c (set_remote srv (wait ms w1)) =
  (Return data,
   set_console (console w1 ++ ["Cache hit for: " +:+ call_url c])
     (set_remote srv (wait ms w1))).
Proof.
  intros Hk Hdata Hms.
  assert (cached (call_url c) (set_remote srv (wait ms w1)) = data) as Hc.
  { unfold cached. simpl. by rewrite (wait_keeps_fresh ms w1 _ _ Hk Hms). }
  rewrite call_aside, cache_aside_hit by (by rewrite Hc).
  rewrite Hc. simpl. destruct (wait_frame ms w1) as (_ & _ & _ & _ & _ & _ & -> & _). done.
Qed.

(** The list operation is cached like the fetches by name: a miss answered
    with a 2xx status and a decodable page requests the URL once, returns the
    page and stores it; a second call with the same argument at most one
    interval later requests nothing and returns the same page. *)
Theorem list_page_miss_then_hit (pageURL : option string) (w : World)
    (r : Response) (data : JSValue) :
  let url := PokeAPI.or_default pageURL
               "https://pokeapi.co/api/v2/location-area?offset=0&limit=20" in
  let op := PokeAPI.fetchLocations pageURL in
  truthy (cached url w) = false ->
  outcome (remote w url) = Some r ->
  ok r = true ->
  body r = Some data ->
  truthy data = true ->
  result op w = Return data /\
  requests (exec op w) = requests w ++ [url] /\
  cache (exec op w) !! url = Some (mkEntry (clock (exec op w)) data) /\
  forall (srv : string -> Reply) (ms : nat),
    Z.of_nat ms <= interval w ->
    result op (set_remote srv (wait ms (exec op w))) = Return data /\
    requests (exec op (set_remote srv (wait ms (exec op w)))) = requests w ++ [url].
Proof.
  intros url op Hmiss Hout Hok Hbody Hdata.
  pose proof (call_miss_stores (ListPage pageURL) w r data Hmiss Hout Hok Hbody) as Hrun.
  change (call (ListPage pageURL)) with op in Hrun.
  change (call_url (ListPage pageURL)) with url in Hrun.
  set (w3 := wait (body_latency r) (settled url w)) in *.
  set (w' := exec (Cache.add url data) w3) in *.
  assert (exec op w = w') as -> by (unfold exec; by rewrite Hrun).
  assert (result op w = Return data) as -> by (unfold result; by rewrite Hrun).
  destruct (settled_frame url w) as (Hreq & _ & Hint).
  assert (requests w' = requests w ++ [url]) as Hreq'
    by (subst w' w3; rewrite add_exec; simpl; by rewrite wait_requests).
  assert (cache w' !! url = Some (mkEntry (clock w') data)) as Hk
    by (subst w'; rewrite add_exec; apply lookup_insert_eq).
  split; [done|]. split; [done|]. split; [done|].
  intros srv ms Hms.
  pose proof (call_hit_again (ListPage pageURL) w' data (clock w') srv ms Hk Hdata) as Hhit.
  change (call (ListPage pageURL)) with op in Hhit.
  unfold result, exec. rewrite Hhit.
  - simpl. by rewrite wait_requests.
  - subst w' w3. rewrite add_exec. simpl. rewrite wait_interval, Hint. lia.
Qed.

Lemma list_page_miss_then_hit_test :
  requests
    (exec (PokeAPI.fetchLocations None)
       (wait 1000 (exec (PokeAPI.fetchLocations None)
                     (exec PokeAPI.constructor (boot 0 (const_server (JObject [("count", JNumber 0)]))))))) =
  ["https://pokeapi.co/api/v2/location-area?offset=0&limit=20"].
Proof.
  set (srv := const_server (JObject [("count", JNumber 0)])).
  destruct (list_page_miss_then_hit None (exec PokeAPI.constructor (boot 0 srv))
              (mkResponse 200 (Some (JObject [("count", JNumber 0)])) "" 0)
              (JObject [("count", JNumber 0)])
              eq_refl eq_refl eq_refl eq_refl eq_refl) as (_ & _ & _ & H).
  apply (H srv 1000%nat). simpl. lia.
Defined.

Lemma call_hit (c : Call) (w : World) :
  truthy (cached (call_url c) w) = true ->
  call c w =
  (Return (cached (call_url c) w),
   set_console (console w ++ ["Cache hit for: " +:+ call_url c]) w).
Proof. intros Hhit. by rewrite call_aside, cache_aside_hit. Qed.

(** A hit costs nothing and renews nothing: however many times in a row a
    call finds its entry, each call returns the value in the map at once, and
    all of them together change the world by console lines only; no request,
    no time passing, the entry and its timestamp as they were. *)
Theorem hits_renew_nothing (c : Call) (w : World) (n : nat) :
  truthy (cached (call_url c) w) = true ->
  result (call c) (Nat.iter n (exec (call c)) w) = Return (cached (call_url c) w) /\
  set_console (console w) (Nat.iter n (exec (call c)) w) = w.
Proof.
  intros Hhit.
  assert (cached (call_url c) (Nat.iter n (exec (call c)) w) = cached (call_url c) w /\
          set_console (console w) (Nat.iter n (exec (call c)) w) = w) as [Hc Hw].
  { induction n as [|n [IHc IHw]]; [by destruct w|].
    rewrite Nat.iter_succ. unfold exec at 1 3.
    rewrite call_hit by (by rewrite IHc). cbn [snd]. split; [done|].
    exact IHw. }
  split; [|done]. unfold result. by rewrite call_hit, Hc by (by rewrite Hc).
Qed.

Lemma hits_renew_nothing_test :
  set_console
    (console (exec (call (ByName Pokemon "pikachu"))
                (exec PokeAPI.constructor (boot 0 test_server))))
    (Nat.iter 3 (exec (call (ByName Pokemon "pikachu")))
       (exec (call (ByName Pokemon "pikachu"))
          (exec PokeAPI.constructor (boot 0 test_server)))) =
  exec (call (ByName Pokemon "pikachu")) (exec PokeAPI.constructor (boot 0 test_server)).
Proof.
  apply (hits_renew_nothing (ByName Pokemon "pikachu")).
  vm_compute. reflexivity.
Defined.

(** A record that decodes to a falsy value ([null], [0], [false], the empty
    string) is returned and stored, but never served: the next call for the
    same thing finds the entry, takes it for a miss and requests the URL
    again. *)
Theorem falsy_record_never_served (c : Call) (w : World) (r : Response) (data : JSValue) :
  truthy (cached (call_url c) w) = false ->
  outcome (remote w (call_url c)) = Some r ->
  ok r = true ->
  body r = Some data ->
  truthy data = false ->
  result (call c) w = Return data /\
  cache (exec (call c) w) !! call_url c = Some (mkEntry (clock (exec (call c) w)) data) /\
  requests (exec (call c) (exec (call c) w)) = requests w ++ [call_url c; call_url c].
Proof.
  intros Hmiss Hout Hok Hbody Hdata.
  pose proof (call_miss_stores c w r data Hmiss Hout Hok Hbody) as Hrun.
  set (w3 := wait (body_latency r) (settled (call_url c) w)) in *.
  set (w' := exec (Cache.add (call_url c) data) w3) in *.
  assert (exec (call c) w = w') as -> by (unfold exec; by rewrite Hrun).
  assert (result (call c) w = Return data) as -> by (unfold result; by rewrite Hrun).
  assert (cache w' !! call_url c = Some (mkEntry (clock w') data)) as Hk
    by (subst w'; rewrite add_exec; apply lookup_insert_eq).
  split; [done|]. split; [done|].
  rewrite call_aside.
  destruct (cache_aside_keyed (call_url c) w') as [_ Hkeyed].
  destruct Hkeyed as [-> _].
  - unfold cached. by rewrite Hk.
  - subst w' w3. rewrite add_exec. simpl. rewrite wait_requests.
    destruct (settled_frame (call_url c) w) as (-> & _). by rewrite <- app_assoc.
Qed.

Lemma falsy_record_never_served_test :
  requests (exec (call (ByName Pokemon "mew"))
              (exec (call (ByName Pokemon "mew"))
                 (exec PokeAPI.constructor (boot 0 (const_server JNull))))) =
  ["https://pokeapi.co/api/v2/pokemon/mew"; "https://pokeapi.co/api/v2/pokemon/mew"].
Proof.
  apply (falsy_record_never_served (ByName Pokemon "mew")
           (exec PokeAPI.constructor (boot 0 (const_server JNull)))
           (mkResponse 200 (Some JNull) "" 0) JNull); reflexivity.
Defined.

Lemma resource_url_inj (res res' : Resource) (name name' : string) :
  resource_url res name = resource_url res' name' -> res = res' /\ name = name'.
Proof.
  destruct res, res'; simpl; intros H; by simplify_eq.
Qed.

(** A call writes under its own URL only. *)
Lemma call_writes_own_key (c : Call) (w : World) (k : string) (e : CacheEntry) :
  k <> call_url c ->
  cache (exec (call c) w) !! k = Some e -> cache w !! k = Some e.
Proof.
  intros Hk. rewrite call_exec.
  destruct (truthy (cached (call_url c) w)) eqn:Hc.
  - by rewrite cache_aside_hit.
  - rewrite cache_aside_miss by done.
    destruct (settled_frame (call_url c) w) as (_ & Hcache & _).
    assert (forall n, cache (wait n (settled (call_url c) w)) !! k = Some e ->
                      cache w !! k = Some e) as Hback.
    { intros n H. apply wait_lookup_Some in H. rewrite Hcache in H.
      by apply wait_lookup_Some in H. }
    destruct (outcome (remote w (call_url c))) as [r|]; simpl; [|apply (Hback 0%nat)].
    destruct (ok r); simpl; [|apply (Hback 0%nat)].
    destruct (body r) as [d|]; simpl; [|apply Hback].
    rewrite lookup_insert_ne by done. apply Hback.
Qed.

(** The URLs of the fetches by name tell the resources and the names apart,
    and a fetch writes under its own URL only: fetching one thing never
    creates or changes the cache entry of another. *)
Theorem by_name_entries_independent (res res' : Resource) (name name' : string)
    (w : World) (e : CacheEntry) :
  (res, name) <> (res', name') ->
  resource_url res name <> resource_url res' name' /\
  (cache (exec (fetch_by_name res name) w) !! resource_url res' name' = Some e ->
   cache w !! resource_url res' name' = Some e).
Proof.
  intros Hne.
  assert (resource_url res' name' <> resource_url res name) as Hurl.
  { intros H. apply resource_url_inj in H as [-> ->]. by apply Hne. }
  split; [done|].
  apply (call_writes_own_key (ByName res name) w). exact Hurl.
Qed.

Lemma by_name_entries_independent_test :
  resource_url Pokemon "ditto" <> resource_url LocationArea "ditto".
Proof.
  apply (by_name_entries_independent Pokemon LocationArea "ditto" "ditto"
           (boot 0 test_server) (mkEntry 0 JNull)).
  discriminate.
Defined.

(** The list operation shares the map with the fetches by name and checks
    nothing about what it finds: called with the URL of a record that a fetch
    by name has cached, it returns that record, without a request. *)
Theorem list_page_serves_by_name_record (res : Resource) (name : string) (w : World) :
  truthy (cached (resource_url res name) w) = true ->
  result (PokeAPI.fetchLocations (Some (resource_url res name))) w =
    Return (cached (resource_url res name) w) /\
  requests (exec (PokeAPI.fetchLocations (Some (resource_url res name))) w) = requests w.
Proof.
  intros Hhit.
  assert (call_url (ListPage (Some (resource_url res name))) = resource_url res name) as Hurl
    by (by destruct res).
  pose proof (call_hit (ListPage (Some (resource_url res name))) w) as H.
  rewrite Hurl in H. specialize (H Hhit).
  change (call (ListPage (Some (resource_url res name))))
    with (PokeAPI.fetchLocations (Some (resource_url res name))) in H.
  unfold result, exec. by rewrite H.
Qed.

Lemma list_page_serves_by_name_record_test :
  result (PokeAPI.fetchLocations (Some "https://pokeapi.co/api/v2/pokemon/pikachu"))
    (exec (PokeAPI.fetchPokemon "pikachu") (exec PokeAPI.constructor (boot 0 test_server))) =
  Return (JObject [("id", JNumber 25); ("name", JString "pikachu")]).
Proof.
  apply (list_page_serves_by_name_record Pokemon "pikachu"
           (exec (PokeAPI.fetchPokemon "pikachu") (exec PokeAPI.constructor (boot 0 test_server)))).
  vm_compute. reflexivity.
Defined.

(** While the sweep runs, a stored record is not served for ever: from two
    intervals after it was stored the sweep is due, and once it has fired the
    entry is gone and a call for the same thing requests the URL again. *)
Theorem refetch_after_two_intervals (c : Call) (w : World) (r : Response) (data : JSValue) :
  sweeping w ->
  truthy (cached (call_url c) w) = false ->
  outcome (remote w (call_url c)) = Some r ->
  ok r = true ->
  body r = Some data ->
  forall (srv : string -> Reply) (ms : nat),
    2 * interval w <= Z.of_nat ms ->
    cache (fire (wait ms (exec (call c) w))) !! call_url c = None /\
    requests (exec (call c) (set_remote srv (fire (wait ms (exec (call c) w))))) =
    requests w ++ [call_url c; call_url c].
Proof.
  intros Hs Hmiss Hout Hok Hbody srv ms Hms.
  pose proof (call_miss_stores c w r data Hmiss Hout Hok Hbody) as Hrun.
  set (w3 := wait (body_latency r) (settled (call_url c) w)) in *.
  set (w' := exec (Cache.add (call_url c) data) w3) in *.
  assert (exec (call c) w = w') as -> by (unfold exec; by rewrite Hrun).
  assert (sweeping w3) as Hs3 by (subst w3; by apply sweeping_wait, sweeping_settled).
  destruct (settled_frame (call_url c) w) as (Hreq & _ & Hint).
  assert (interval w3 = interval w) as Hint3 by (subst w3; by rewrite wait_interval).
  assert (cache (fire (wait ms w')) !! call_url c = None) as Hgone.
  { apply (doomed_gone _ _ _ (mkEntry (clock w3) data)).
    - by apply add_doomed.
    - subst w'. rewrite add_exec. apply lookup_insert_eq.
    - subst w'. rewrite add_exec. simpl. lia. }
  split; [done|].
  rewrite call_aside.
  destruct (cache_aside_keyed (call_url c) (set_remote srv (fire (wait ms w')))) as [_ Hk].
  destruct Hk as [-> _].
  - unfold cached. simpl. by rewrite Hgone.
  - simpl. destruct (fire_frame (wait ms w')) as (_ & _ & _ & _ & _ & _ & -> & _).
    rewrite wait_requests. subst w' w3. rewrite add_exec. simpl.
    rewrite wait_requests, Hreq. by rewrite <- app_assoc.
Qed.

Lemma refetch_after_two_intervals_test :
  requests
    (exec (call (ByName Pokemon "pikachu"))
       (fire (wait 200 (exec (call (ByName Pokemon "pikachu"))
                          (exec (Cache.constructor 100) (boot 0 test_server)))))) =
  ["https://pokeapi.co/api/v2/pokemon/pikachu"; "https://pokeapi.co/api/v2/pokemon/pikachu"].
Proof.
  apply (refetch_after_two_intervals (ByName Pokemon "pikachu")
           (exec (Cache.constructor 100) (boot 0 test_server))
           (mkResponse 200
              (Some (JObject [("id", JNumber 25); ("name", JString "pikachu")])) "" 1)
           (JObject [("id", JNumber 25); ("name", JString "pikachu")])
           ltac:(apply constructor_sweeping; unfold TIMEOUT_MAX; lia)
           eq_refl eq_refl eq_refl eq_refl test_server 200%nat).
  simpl. lia.
Defined.

(** ** Invariants of a cache in use *)

Lemma young_fire (w : World) : young w -> young (fire w).
Proof.
  intros (id & tm & Hh & Htm & Hd & HT & Hdue & Hall).
  exists id, (rearm (clock w) tm).
  destruct (fire_frame w) as (Hc & Hi & Hr & _).
  rewrite Hc, Hi, Hr, (fire_timer w id tm Htm).
  unfold rearm. case_bool_decide as Hfire; simpl.
  - refine (conj Hh (conj eq_refl (conj Hd (conj HT (conj _ _))))); [lia|].
    intros k e Hk. pose proof (Hall k e (fire_lookup_Some _ _ _ Hk)) as [Hpast _].
    split; [done|]. rewrite fire_lookup in Hk.
    destruct (fired_size _ _ _ _ Htm Hfire) as [n Hn]. rewrite Hn in Hk.
    destruct (cache w !! k) as [e'|]; [|done].
    unfold survives in Hk. case_bool_decide; simpl in Hk; [done|].
    injection Hk as ->. lia.
  - refine (conj Hh (conj eq_refl (conj Hd (conj HT (conj Hdue _))))).
    intros k e Hk. exact (Hall k e (fire_lookup_Some _ _ _ Hk)).
Qed.

Lemma young_wait (n : nat) (w : World) : young w -> young (wait n w).
Proof.
  apply (wait_invariant young).
  - apply young_fire.
  - intros w' t Ht (id & tm & Hh & Htm & Hd & HT & Hdue & Hall). exists id, tm. simpl.
    refine (conj Hh (conj Htm (conj Hd (conj HT (conj _ _))))); [lia|].
    intros k e Hk. destruct (Hall k e Hk). split; [lia|done].
Qed.

Lemma young_add (k : string) (v : JSValue) (w : World) :
  young w -> young (exec (Cache.add k v) w).
Proof.
  intros (id & tm & Hh & Htm & Hd & HT & Hdue & Hall). exists id, tm.
  rewrite add_exec. simpl.
  refine (conj Hh (conj Htm (conj Hd (conj HT (conj Hdue _))))).
  intros k' e' H'. destruct (decide (k = k')) as [->|Hne].
  - rewrite lookup_insert_eq in H'. injection H' as <-. simpl. lia.
  - rewrite lookup_insert_ne in H' by done. exact (Hall _ _ H').
Qed.

Lemma young_settled (url : string) (w : World) : young w -> young (settled url w).
Proof. intros H. unfold settled. by apply young_wait. Qed.

Lemma young_call (c : Call) (w : World) : young w -> young (exec (call c) w).
Proof.
  intros H. rewrite call_exec.
  destruct (truthy (cached (call_url c) w)) eqn:Hc.
  - by rewrite cache_aside_hit.
  - rewrite cache_aside_miss by done.
    pose proof (young_settled (call_url c) w H) as Hs.
    destruct (outcome (remote w (call_url c))) as [r|]; [|done].
    destruct (ok r); [|done].
    pose proof (young_wait (body_latency r) _ Hs) as Hb.
    destruct (body r) as [d|]; [|done].
    apply (young_add (call_url c) d _ Hb).
Qed.

Lemma young_step (s : Step) (w : World) : is_stop s = false -> young w -> young (step s w).
Proof.
  destruct s as [k v|k| |c|ms|srv]; simpl; intros Hs H; try done.
  - by apply young_add.
  - by rewrite get_exec.
  - by apply young_call.
  - by apply young_wait.
Qed.

Lemma young_run (steps : list Step) (w : World) :
  forallb (fun s => negb (is_stop s)) steps = true -> young w -> young (run steps w).
Proof.
  revert w. induction steps as [|s steps IH]; intros w Hs H; [done|].
  simpl in Hs. apply andb_prop in Hs as [Hs1 Hs2].
  apply (IH (step s w)); [done|].
  apply young_step; [|done]. by destruct (is_stop s).
Qed.

Lemma young_constructor (i : Z) (w : World) :
  0 < i <= TIMEOUT_MAX -> young (exec (Cache.constructor i) w).
Proof.
  intros Hi. exists (next_timer w), (mkTimer i (clock w + i)).
  rewrite constructor_exec, (timer_delay_id i Hi). simpl. rewrite lookup_insert_eq.
  refine (conj eq_refl (conj eq_refl (conj eq_refl (conj _ (conj _ _))))); [lia|lia|].
  intros k e H. by rewrite lookup_empty in H.
Qed.

Lemma run_interval (steps : list Step) (w : World) : interval (run steps w) = interval w.
Proof.
  revert w. induction steps as [|s steps IH]; intros w; [done|].
  simpl. rewrite IH.
  destruct s as [key v|key| |c|ms|srv]; simpl; try done.
  - by rewrite get_exec.
  - rewrite stop_exec. by destruct (reapIntervalId w).
  - rewrite call_exec.
    destruct (truthy (cached (call_url c) w)) eqn:Hc.
    + by rewrite cache_aside_hit.
    + rewrite cache_aside_miss by done.
      destruct (settled_frame (call_url c) w) as (_ & _ & Hs).
      destruct (outcome (remote w (call_url c))) as [r|]; [|done].
      destruct (ok r); [|done].
      destruct (body r) as [d|]; simpl; by rewrite wait_interval.
  - apply wait_interval.
Qed.

(** The sweep keeps up with whatever is done to the cache: after any
    sequence of adds, gets, calls of the client, waits and changes of the
    server that follows the construction of a cache (interval from 1 to
    2147483647 ms, no stop), every entry of the map was created in the past,
    and an entry two intervals old or older finds the sweep due: the firing
    of the due timers removes it. *)
Theorem old_entries_await_sweep (i : Z) (w0 : World) (steps : list Step)
    (k : string) (e : CacheEntry) :
  0 < i <= 2147483647 ->
  forallb (fun s => negb (is_stop s)) steps = true ->
  cache (run steps (exec (Cache.constructor i) w0)) !! k = Some e ->
  interval (run steps (exec (Cache.constructor i) w0)) = i /\
  createdAt e <= clock (run steps (exec (Cache.constructor i) w0)) /\
  (createdAt e + 2 * i <= clock (run steps (exec (Cache.constructor i) w0)) ->
   cache (fire (run steps (exec (Cache.constructor i) w0))) !! k = None).
Proof.
  intros Hi Hsteps Hk.
  set (w := run steps (exec (Cache.constructor i) w0)) in *.
  assert (interval w = i) as Hint by (subst w; by rewrite run_interval).
  split; [done|].
  destruct (young_run steps _ Hsteps (young_constructor i w0 Hi))
    as (id & tm & _ & Htm & _ & _ & Hdue & Hall).
  fold w in Htm, Hdue, Hall. destruct (Hall k e Hk) as [Hpast Hsoon].
  split; [done|]. intros Hold. rewrite Hint in *.
  rewrite fire_lookup, Hk.
  destruct (fired_size (clock w) _ _ _ Htm ltac:(lia)) as [n ->].
  unfold survives. rewrite Hint, bool_decide_eq_true_2 by lia. done.
Qed.

Lemma old_entries_await_sweep_test :
  cache (fire (run [StepAdd "a" (JString "x"); StepWait 250]
                 (exec (Cache.constructor 100)
                    (set_pace (fun _ => false) (fun _ => false) (boot 0 test_server))))) !! "a" =
  None.
Proof.
  apply (old_entries_await_sweep 100
           (set_pace (fun _ => false) (fun _ => false) (boot 0 test_server))
           [StepAdd "a" (JString "x"); StepWait 250] "a" (mkEntry 0 (JString "x"))).
  - lia.
  - reflexivity.
  - vm_compute. reflexivity.
  - vm_compute. discriminate.
Defined.

Lemma stopped_wait (n : nat) (w : World) :
  stopped w -> stopped (wait n w) /\ cache (wait n w) = cache w.
Proof.
  intros [Hh Ht]. destruct (wait_no_timers n w Ht) as [Ht' Hc].
  destruct (wait_frame n w) as (_ & _ & Hr & _).
  repeat split; [by rewrite Hr|done|done].
Qed.

Lemma stopped_call (c : Call) (w : World) (k : string) :
  stopped w ->
  stopped (exec (call c) w) /\
  (is_Some (cache w !! k) -> is_Some (cache (exec (call c) w) !! k)).
Proof.
  intros Hs. rewrite call_exec.
  destruct (truthy (cached (call_url c) w)) eqn:Hc.
  - by rewrite cache_aside_hit.
  - rewrite cache_aside_miss by done.
    assert (stopped (settled (call_url c) w) /\
            cache (settled (call_url c) w) = cache w) as [Hs1 Hc1].
    { unfold settled.
      destruct (stopped_wait (latency (remote w (call_url c)))
                  (set_requests (requests w ++ [call_url c])
                     (set_console (console w ++ ["Cache miss, fetching: " +:+ call_url c]) w)))
        as [H1 H2]; done. }
    destruct (outcome (remote w (call_url c))) as [r|]; cbn [snd]; [|by rewrite Hc1].
    destruct (ok r); cbn [snd]; [|by rewrite Hc1].
    destruct (stopped_wait (body_latency r) _ Hs1) as [Hs2 Hc2].
    destruct (body r) as [d|]; cbn [snd].
    + split; [done|]. simpl. rewrite Hc2, Hc1. intros Hk.
      destruct (decide (call_url c = k)) as [->|Hne].
      * rewrite lookup_insert_eq. eauto.
      * by rewrite lookup_insert_ne.
    + by rewrite Hc2, Hc1.
Qed.

Lemma stopped_step (s : Step) (w : World) (k : string) :
  stopped w ->
  stopped (step s w) /\ (is_Some (cache w !! k) -> is_Some (cache (step s w) !! k)).
Proof.
  intros Hs. destruct s as [key v|key| |c|ms|srv]; simpl.
  - rewrite add_exec. split; [done|]. simpl. intros Hk.
    destruct (decide (key = k)) as [->|Hne].
    + rewrite lookup_insert_eq. eauto.
    + by rewrite lookup_insert_ne.
  - by rewrite get_exec.
  - rewrite stop_exec. destruct Hs as [Hh Ht]. rewrite Hh. by split.
  - by apply stopped_call.
  - destruct (stopped_wait ms w Hs) as [? ->]. done.
  - done.
Qed.

(** No public method starts the sweep again: once [stopReapLoop] has been
    called (the runtime holding no timer but the cache's own), whatever is
    done next the handle stays cleared, no timer exists and no key ever
    leaves the map. *)
Theorem stopped_sweep_never_resumes (w : World) (steps : list Step) (k : string) :
  owned w ->
  reapIntervalId (run steps (exec Cache.stopReapLoop w)) = None /\
  timers (run steps (exec Cache.stopReapLoop w)) = ∅ /\
  (is_Some (cache w !! k) ->
   is_Some (cache (run steps (exec Cache.stopReapLoop w)) !! k)).
Proof.
  intros Hown.
  assert (stopped (exec Cache.stopReapLoop w)) as Hs.
  { rewrite stop_exec. destruct (reapIntervalId w) as [id|] eqn:E; split; simpl; try done.
    - apply map_eq. intros id'. rewrite lookup_empty.
      destruct (decide (id = id')) as [->|Hne]; [apply lookup_delete_eq|].
      rewrite lookup_delete_ne by done.
      destruct (timers w !! id') eqn:E'; [|done].
      assert (Some id = Some id') by (rewrite <- E; apply Hown; eauto). congruence.
    - apply map_eq. intros id'. rewrite lookup_empty.
      destruct (timers w !! id') eqn:E'; [|done].
      assert (reapIntervalId w = Some id') by (apply Hown; eauto). congruence. }
  assert (cache (exec Cache.stopReapLoop w) = cache w) as Hc
    by (rewrite stop_exec; by destruct (reapIntervalId w)).
  rewrite <- Hc. revert Hs. generalize (exec Cache.stopReapLoop w). clear.
  induction steps as [|s steps IH]; intros w [Hh Ht].
  - done.
  - simpl. destruct (stopped_step s w k (conj Hh Ht)) as [Hs Hk].
    destruct (IH _ Hs) as (? & ? & ?). auto.
Qed.

Lemma stopped_sweep_never_resumes_test :
  is_Some (cache (run [StepWait 1000; StepAdd "b" JNull; StepStop; StepWait 1000]
                    (exec Cache.stopReapLoop test_world)) !! "a").
Proof.
  apply (stopped_sweep_never_resumes test_world
           [StepWait 1000; StepAdd "b" JNull; StepStop; StepWait 1000] "a").
  - exact test_world_owned.
  - vm_compute. eauto.
Defined.

Lemma step_lookup (s : Step) (w : World) (k : string) (e : CacheEntry) :
  cache (step s w) !! k = Some e ->
  cache w !! k = Some e \/ step_key s = Some k.
Proof.
  destruct s as [key v|key| |c|ms|srv]; cbn [step step_key]; intros H.
  - destruct (decide (key = k)) as [->|Hne]; [by right|left].
    rewrite add_exec in H. simpl in H. by rewrite lookup_insert_ne in H.
  - left. by rewrite get_exec in H.
  - left. rewrite stop_exec in H. by destruct (reapIntervalId w).
  - destruct (decide (k = call_url c)) as [->|Hne]; [by right|left].
    by apply (call_writes_own_key c).
  - left. by apply wait_lookup_Some in H.
  - by left.
Qed.

(** The map holds only what was put there: after any sequence of steps that
    follows the construction of a cache, [get] returns [undefined] for every
    key that no [add] was given and that is the URL of no call made. *)
Theorem get_undefined_unless_written (i : Z) (w0 : World) (steps : list Step) (k : string) :
  Forall (fun s => step_key s <> Some k) steps ->
  result (Cache.get k) (run steps (exec (Cache.constructor i) w0)) = Return JUndefined.
Proof.
  intros Hsteps. rewrite get_result. unfold cached.
  assert (cache (exec (Cache.constructor i) w0) !! k = None) as H0
    by (rewrite constructor_exec; apply lookup_empty).
  revert H0. generalize (exec (Cache.constructor i) w0).
  induction Hsteps as [|s steps Hs _ IH]; intros w Hw; simpl.
  - by rewrite Hw.
  - apply IH. destruct (cache (step s w) !! k) as [e|] eqn:E; [|done].
    apply step_lookup in E as [E|E]; congruence.
Qed.

Lemma get_undefined_unless_written_test :
  result (Cache.get "https://pokeapi.co/api/v2/pokemon/mew")
    (run [StepCall (ByName Pokemon "pikachu"); StepAdd "a" JNull; StepWait 10]
       (exec PokeAPI.constructor (boot 0 test_server))) = Return JUndefined.
Proof.
  apply (get_undefined_unless_written 300000 (boot 0 test_server)
           [StepCall (ByName Pokemon "pikachu"); StepAdd "a" JNull; StepWait 10]).
  repeat constructor; discriminate.
Defined.

(** The background only ever removes: neither a sweep nor any time spent
    waiting creates an entry or changes the value or the timestamp of one. *)
Theorem sweep_only_removes (n : nat) (w : World) :
  cache (exec Cache.reap w) ⊆ cache w /\ cache (wait n w) ⊆ cache w.
Proof.
  split; [|apply wait_subseteq].
  apply map_subseteq_spec. intros k e. rewrite reap_lookup.
  destruct (cache w !! k) as [e'|]; [|done]. by destruct (survives _ e').
Qed.

(** ** Edges of the sweep *)

(** A cache built with a zero or negative interval keeps nothing: its timer
    is armed with a period of 1 ms, and a sweep removes every entry added
    before the millisecond it runs in, however recent; so once a sweep has
    run, one millisecond after an [add] or later, [get] returns
    [undefined]. *)
Theorem nonpositive_interval_keeps_nothing (i : Z) (w0 : World) (k : string)
    (v : JSValue) (a n ms' : nat) :
  i <= 0 ->
  timers (exec (Cache.constructor i) w0) !! next_timer w0 =
    Some (mkTimer 1 (clock w0 + 1)) /\
  result (Cache.get k)
    (wait ms' (exec Cache.reap
                 (wait (S n) (exec (Cache.add k v) (wait a (exec (Cache.constructor i) w0)))))) =
  Return JUndefined.
Proof.
  intros Hi. split.
  { rewrite constructor_exec. simpl. rewrite lookup_insert_eq. unfold timer_delay.
    destruct (1 <=? i) eqn:E; [lia|done]. }
  rewrite get_result. unfold cached.
  set (w := wait a (exec (Cache.constructor i) w0)).
  set (w1 := wait (S n) (exec (Cache.add k v) w)).
  assert (interval w = i) as Hint by (subst w; by rewrite wait_interval).
  assert (cache (exec Cache.reap w1) !! k = None) as Hgone.
  { rewrite reap_lookup.
    destruct (cache w1 !! k) as [e|] eqn:E; [|done].
    apply wait_lookup_Some in E. rewrite add_exec in E. simpl in E.
    rewrite lookup_insert_eq in E. injection E as <-.
    subst w1. rewrite wait_clock, wait_interval, add_exec. simpl.
    unfold survives. simpl. rewrite bool_decide_eq_true_2 by lia. done. }
  destruct (cache (wait ms' _) !! k) as [e|] eqn:E; [|done].
  apply wait_lookup_Some in E. congruence.
Qed.

Lemma nonpositive_interval_keeps_nothing_test :
  result (Cache.get "a")
    (wait 0 (exec Cache.reap
               (wait 1 (exec (Cache.add "a" (JString "x"))
                          (wait 0 (exec (Cache.constructor 0) (boot 0 test_server))))))) =
  Return JUndefined.
Proof.
  apply (nonpositive_interval_keeps_nothing 0 (boot 0 test_server) "a" (JString "x") 0 0 0). lia.
Defined.

(** ** [cleanInput] *)

Example cleanInput_hello : cleanInput "  hello  world  " = ["hello"; "world"].
Proof. reflexivity. Qed.

Example cleanInput_names :
  cleanInput "Charmander Bulbasaur PIKACHU" = ["charmander"; "bulbasaur"; "pikachu"].
Proof. reflexivity. Qed.

Example cleanInput_blank : cleanInput "   " = [""].
Proof. reflexivity. Qed.

Lemma to_lower_spec (c : Ascii.ascii) :
  is_space (to_lower c) = is_space c /\ is_upper (to_lower c) = false /\
  (is_upper c = false -> to_lower c = c) /\ (is_space c = true -> is_upper c = false).
Proof. by destruct c as [[] [] [] [] [] [] [] []]. Qed.

Lemma chars_append (a b : string) :
  String.list_ascii_of_string (a +:+ b) =
  String.list_ascii_of_string a ++ String.list_ascii_of_string b.
Proof. induction a as [|c a IH]; simpl; [done|]. by rewrite IH. Qed.

Lemma trim_start_suffix (s : list Ascii.ascii) :
  exists pre, s = pre ++ trim_start s /\ Forall (fun c => is_space c = true) pre.
Proof.
  induction s as [|c s (pre & Hs & Hpre)]; simpl.
  - by exists [].
  - destruct (is_space c) eqn:E.
    + exists (c :: pre). split; [simpl; by f_equal|by constructor].
    + by exists [].
Qed.

Lemma trim_start_head (s : list Ascii.ascii) (c : Ascii.ascii) :
  head (trim_start s) = Some c -> is_space c = false.
Proof.
  induction s as [|c' s IH]; simpl; [done|].
  destruct (is_space c') eqn:E; [done|]. simpl. by intros [= <-].
Qed.

Lemma trim_start_id (s : list Ascii.ascii) :
  (forall c, head s = Some c -> is_space c = false) -> trim_start s = s.
Proof.
  destruct s as [|c s]; simpl; [done|]. intros H. by rewrite (H c eq_refl).
Qed.

Lemma trim_start_spaces (s : list Ascii.ascii) :
  Forall (fun c => is_space c = true) s -> trim_start s = [].
Proof. induction 1 as [|c s Hc _ IH]; simpl; [done|]. by rewrite Hc. Qed.

Lemma trim_start_filter (s : list Ascii.ascii) :
  filter (fun c => is_space c = false) (trim_start s) =
  filter (fun c => is_space c = false) s.
Proof.
  induction s as [|c s IH]; simpl; [done|].
  destruct (is_space c) eqn:E; [|done].
  rewrite filter_cons_False by congruence. done.
Qed.

Lemma trim_start_last (s : list Ascii.ascii) (c : Ascii.ascii) :
  last (trim_start s) = Some c -> last s = Some c.
Proof.
  destruct (trim_start_suffix s) as (pre & Hs & _). intros H.
  rewrite Hs, last_app, H. done.
Qed.

(** The trimmed string neither begins nor ends with white space. *)
Lemma trim_ends (s : list Ascii.ascii) (c : Ascii.ascii) :
  head (trim s) = Some c \/ last (trim s) = Some c -> is_space c = false.
Proof.
  unfold trim. rewrite head_reverse, last_reverse. intros [H|H].
  - apply trim_start_last in H. rewrite last_reverse in H.
    by apply trim_start_head in H.
  - by apply trim_start_head in H.
Qed.

Lemma trim_filter (s : list Ascii.ascii) :
  filter (fun c => is_space c = false) (trim s) = filter (fun c => is_space c = false) s.
Proof.
  unfold trim.
  by rewrite filter_reverse, trim_start_filter, filter_reverse, reverse_involutive,
    trim_start_filter.
Qed.

Lemma trim_spaces (s : list Ascii.ascii) :
  Forall (fun c => is_space c = true) s -> trim s = [].
Proof. intros H. unfold trim. by rewrite (trim_start_spaces s H). Qed.

Lemma trim_id (s : list Ascii.ascii) :
  (forall c, head s = Some c \/ last s = Some c -> is_space c = false) -> trim s = s.
Proof.
  intros H. unfold trim.
  rewrite (trim_start_id s) by (intros c Hc; apply H; by left).
  rewrite trim_start_id, reverse_involutive; [done|].
  intros c Hc. rewrite head_reverse in Hc. apply H. by right.
Qed.

Lemma split_ws_not_nil (r : bool) (cur s : list Ascii.ascii) : split_ws r cur s <> [].
Proof.
  revert r cur. induction s as [|c s IH]; intros r cur; simpl; [done|].
  destruct (is_space c); [|apply IH]. destruct r; [apply IH|done].
Qed.

Lemma split_ws_concat (r : bool) (cur s : list Ascii.ascii) :
  concat (split_ws r cur s) = cur ++ filter (fun c => is_space c = false) s.
Proof.
  revert r cur. induction s as [|c s IH]; intros r cur; simpl.
  - by rewrite filter_nil.
  - destruct (is_space c) eqn:E.
    + rewrite filter_cons_False by congruence.
      destruct r; simpl; by rewrite IH.
    + rewrite filter_cons_True by done. rewrite IH, <- app_assoc. done.
Qed.

(** No piece is empty when the string neither begins nor ends with white
    space. *)
Lemma split_ws_pieces (r : bool) (cur s : list Ascii.ascii) :
  (forall c, last s = Some c -> is_space c = false) ->
  (if r then s <> [] else cur <> [] \/ exists c, head s = Some c /\ is_space c = false) ->
  Forall (fun piece => piece <> []) (split_ws r cur s).
Proof.
  revert r cur. induction s as [|c s IH]; intros r cur Hlast Hstart; simpl.
  - destruct r; [done|]. destruct Hstart as [H|(c & H & _)]; [|done].
    by repeat constructor.
  - assert (forall c', last s = Some c' -> is_space c' = false) as Hlast'.
    { intros c' Hc'. apply Hlast. rewrite last_cons, Hc'. done. }
    destruct (is_space c) eqn:E.
    + assert (s <> []) as Hs.
      { intros ->. specialize (Hlast c eq_refl). congruence. }
      destruct r; [by apply IH|].
      constructor; [|by apply IH].
      destruct Hstart as [H|(c' & [= <-] & H)]; [done|congruence].
    + apply IH; [done|]. left. by destruct cur.
Qed.

Lemma split_ws_word (cur w rest : list Ascii.ascii) :
  Forall (fun c => is_space c = false) w ->
  split_ws false cur (w ++ rest) = split_ws false (cur ++ w) rest.
Proof.
  intros Hw. revert cur. induction Hw as [|c w Hc _ IH]; intros cur; simpl.
  - by rewrite app_nil_r.
  - rewrite Hc, IH, <- app_assoc. done.
Qed.

Lemma split_ws_after_run (s : list Ascii.ascii) (c : Ascii.ascii) :
  head s = Some c -> is_space c = false -> split_ws true [] s = split_ws false [] s.
Proof. destruct s as [|c' s]; simpl; [done|]. intros [= ->] ->. done. Qed.

Lemma filter_to_lower (s : list Ascii.ascii) :
  filter (fun c => is_space c = false) (to_lower <$> s) =
  to_lower <$> filter (fun c => is_space c = false) s.
Proof.
  induction s as [|c s IH]; [done|]. rewrite fmap_cons.
  destruct (to_lower_spec c) as (Hsp & _).
  destruct (is_space c) eqn:E.
  - rewrite !filter_cons_False by congruence. done.
  - rewrite !filter_cons_True by congruence. by rewrite fmap_cons, IH.
Qed.

Lemma to_lower_id (s : list Ascii.ascii) :
  Forall (fun c => is_upper c = false) s -> to_lower <$> s = s.
Proof.
  induction 1 as [|c s Hc _ IH]; [done|]. rewrite fmap_cons, IH.
  destruct (to_lower_spec c) as (_ & _ & H & _). by rewrite H.
Qed.

Lemma pieces_to_strings (pieces : list (list Ascii.ascii)) :
  String.list_ascii_of_string <$> (String.string_of_list_ascii <$> pieces) = pieces.
Proof.
  induction pieces as [|p ps IH]; [done|].
  by rewrite !fmap_cons, IH, String.list_ascii_of_string_of_list_ascii.
Qed.

Lemma strings_to_pieces (ws : list string) :
  String.string_of_list_ascii <$> (String.list_ascii_of_string <$> ws) = ws.
Proof.
  induction ws as [|w ws IH]; [done|].
  by rewrite !fmap_cons, IH, String.string_of_list_ascii_of_string.
Qed.

(** The string [cleanInput] splits: trimmed, in lower case. *)
Lemma cleaned_ends (input : string) (c : Ascii.ascii) :
  head (to_lower <$> trim (String.list_ascii_of_string input)) = Some c \/
  last (to_lower <$> trim (String.list_ascii_of_string input)) = Some c ->
  is_space c = false.
Proof.
  set (t := trim (String.list_ascii_of_string input)).
  assert (forall l : list Ascii.ascii, last (to_lower <$> l) = to_lower <$> last l) as Hlast.
  { intros l. rewrite <- !head_reverse, <- fmap_reverse. by destruct (reverse l). }
  assert (head (to_lower <$> t) = to_lower <$> head t) as Hhead by (by destruct t).
  rewrite Hhead, Hlast. intros [H|H].
  - destruct (head t) as [c'|] eqn:E; [|done]. injection H as <-.
    destruct (to_lower_spec c') as (-> & _). apply (trim_ends (String.list_ascii_of_string input)).
    by left.
  - destruct (last t) as [c'|] eqn:E; [|done]. injection H as <-.
    destruct (to_lower_spec c') as (-> & _). apply (trim_ends (String.list_ascii_of_string input)).
    by right.
Qed.

Lemma cleanInput_pieces (input : string) :
  Exists (fun c => is_space c = false) (String.list_ascii_of_string input) ->
  Forall (fun piece => piece <> [] /\
            Forall (fun c => is_space c = false /\ is_upper c = false) piece)
    (split_ws false [] (to_lower <$> trim (String.list_ascii_of_string input))).
Proof.
  intros Hex.
  set (l := to_lower <$> trim (String.list_ascii_of_string input)).
  assert (filter (fun c => is_space c = false) l <> []) as Hne.
  { subst l. rewrite filter_to_lower, trim_filter.
    apply Exists_exists in Hex as (c & Hin & Hc).
    intros Hnil.
    destruct (filter (λ c0, is_space c0 = false) (String.list_ascii_of_string input))
      as [|x xs] eqn:Hf; [|done].
    exact (filter_nil_not_elem_of _ _ c Hf Hc Hin). }
  assert (Forall (fun piece => piece <> []) (split_ws false [] l)) as Hpieces.
  { apply split_ws_pieces.
    - intros c Hc. apply (cleaned_ends input). by right.
    - right. destruct l as [|c l'] eqn:E; [done|]. exists c. split; [done|].
      apply (cleaned_ends input). left. fold l. by rewrite E. }
  apply Forall_forall. intros piece Hin. split.
  - by apply (proj1 (Forall_forall _ _) Hpieces).
  - apply Forall_forall. intros c Hc.
    assert (c ∈ concat (split_ws false [] l)) as Hcc.
    { apply list_elem_of_In, in_concat. exists piece.
      split; by apply list_elem_of_In. }
    rewrite split_ws_concat in Hcc. simpl in Hcc.
    apply list_elem_of_filter in Hcc as [Hsp Hl]. split; [done|].
    subst l. apply list_elem_of_fmap in Hl as (c' & -> & _).
    by destruct (to_lower_spec c') as (_ & -> & _).
Qed.

Lemma join_words_split (ws : list string) :
  ws <> [] -> Forall clean_word ws ->
  (exists c, head (String.list_ascii_of_string (join_words ws)) = Some c /\
             is_space c = false) /\
  (forall c, last (String.list_ascii_of_string (join_words ws)) = Some c ->
             is_space c = false) /\
  Forall (fun c => is_upper c = false) (String.list_ascii_of_string (join_words ws)) /\
  split_ws false [] (String.list_ascii_of_string (join_words ws)) =
    String.list_ascii_of_string <$> ws.
Proof.
  intros Hne Hws. induction Hws as [|w ws [Hw Hcs] Hws IH]; [done|]. clear Hne.
  assert (Forall (fun c => is_space c = false) (String.list_ascii_of_string w)) as Hsp
    by (eapply Forall_impl; [exact Hcs|by intros ? [? ?]]).
  assert (Forall (fun c => is_upper c = false) (String.list_ascii_of_string w)) as Hup
    by (eapply Forall_impl; [exact Hcs|by intros ? [? ?]]).
  assert (exists c t, String.list_ascii_of_string w = c :: t /\ is_space c = false)
    as (c & t & Hct & Hc).
  { destruct w as [|c w']; [done|]. simpl in *. exists c, (String.list_ascii_of_string w').
    split; [done|]. by inversion Hsp. }
  destruct ws as [|w2 rest].
  - simpl. repeat split.
    + exists c. by rewrite Hct.
    + intros c' Hc'. apply last_Some_elem_of in Hc'.
      by apply (proj1 (Forall_forall _ _) Hsp).
    + done.
    + pose proof (split_ws_word [] _ [] Hsp) as H.
      rewrite app_nil_r in H. by rewrite H.
  - destruct IH as ((c2 & Hh2 & Hc2) & Hl2 & Hup2 & Hsplit2); [done|].
    change (join_words (w :: w2 :: rest)) with (w +:+ " " +:+ join_words (w2 :: rest)).
    rewrite !chars_append. set (J := String.list_ascii_of_string (join_words (w2 :: rest))) in *.
    assert (exists sp, String.list_ascii_of_string " " = [sp] /\ is_space sp = true /\
                       is_upper sp = false) as (sp & -> & Hsp1 & Hsp2) by (by eexists).
    repeat split.
    + exists c. by rewrite Hct.
    + intros c' Hc'. apply Hl2. rewrite !last_app in Hc'.
      destruct (last J) as [x|] eqn:E; [done|]. apply last_None in E.
      rewrite E in Hh2. done.
    + apply Forall_app. split; [done|]. apply Forall_app. split; [|done].
      by repeat constructor.
    + rewrite split_ws_word by done. cbn [app split_ws]. rewrite Hsp1.
      rewrite (split_ws_after_run J c2) by done.
      by rewrite Hsplit2.
Qed.

(** [cleanInput] never returns an empty array: for a blank line (empty, or
    white space only) it returns one empty word.  (So the test
    [words.length === 0] of the REPL never holds.) *)
Theorem cleanInput_never_empty (input : string) :
  is_ascii input ->
  cleanInput input <> [] /\
  (Forall (fun c => is_space c = true) (String.list_ascii_of_string input) ->
   cleanInput input = [""]).
Proof.
  intros _. unfold cleanInput. split.
  - intros H. apply fmap_nil_inv in H. by apply split_ws_not_nil in H.
  - intros Hsp. by rewrite trim_spaces.
Qed.

Lemma cleanInput_never_empty_test : cleanInput "  	 " = [""].
Proof.
  apply (cleanInput_never_empty "  	 ").
  - repeat constructor.
  - repeat constructor.
Defined.

(** Every word [cleanInput] returns for a line that is not blank is clean:
    not empty, free of white space and of capital letters. *)
Theorem cleanInput_words_clean (input : string) :
  is_ascii input ->
  Exists (fun c => is_space c = false) (String.list_ascii_of_string input) ->
  Forall clean_word (cleanInput input).
Proof.
  intros _ Hex. unfold cleanInput. apply Forall_fmap.
  eapply Forall_impl; [apply (cleanInput_pieces input Hex)|].
  intros piece [Hne Hcs]. unfold clean_word. simpl.
  rewrite String.list_ascii_of_string_of_list_ascii. split; [|done].
  intros H. apply Hne.
  by rewrite <- (String.list_ascii_of_string_of_list_ascii piece), H.
Qed.

Lemma cleanInput_words_clean_test : Forall clean_word (cleanInput " Catch  PIKACHU ").
Proof.
  apply cleanInput_words_clean.
  - repeat constructor.
  - apply Exists_cons_tl, Exists_cons_hd. reflexivity.
Defined.

(** [cleanInput] loses no character but white space: the words, one after
    the other, are the characters of the line that are not white space, in
    lower case and in their order. *)
Theorem cleanInput_keeps_characters (input : string) :
  is_ascii input ->
  concat (String.list_ascii_of_string <$> cleanInput input) =
  to_lower <$> filter (fun c => is_space c = false) (String.list_ascii_of_string input).
Proof.
  intros _. unfold cleanInput.
  by rewrite pieces_to_strings, split_ws_concat, filter_to_lower, trim_filter.
Qed.

Lemma cleanInput_keeps_characters_test :
  concat (String.list_ascii_of_string <$> cleanInput "Map  B") =
  String.list_ascii_of_string "mapb".
Proof.
  apply (cleanInput_keeps_characters "Map  B"). repeat constructor.
Defined.

(** Clean words joined by single spaces are what [cleanInput] gives back:
    the function is the identity on lines already in its normal form, so
    cleaning twice changes nothing. *)
Theorem cleanInput_join_words (ws : list string) :
  ws <> [] -> Forall clean_word ws -> Forall is_ascii ws ->
  cleanInput (join_words ws) = ws.
Proof.
  intros Hne Hws _.
  destruct (join_words_split ws Hne Hws) as ((c & Hh & Hc) & Hl & Hup & Hsplit).
  unfold cleanInput. rewrite trim_id.
  - by rewrite to_lower_id, Hsplit, strings_to_pieces.
  - intros c' [H|H]; [|by apply Hl]. rewrite Hh in H. by injection H as <-.
Qed.

Lemma cleanInput_join_words_test :
  cleanInput (join_words ["explore"; "canalave-city-area"]) = ["explore"; "canalave-city-area"].
Proof.
  apply cleanInput_join_words.
  - discriminate.
  - repeat constructor; discriminate.
  - repeat constructor.
Defined.
